(** * The body mixin of the fetch client (body.js, fetch-error.js)

    A shallow embedding of the polymorphic body holder shared by Request and
    Response: the [Body] constructor, the private [consumeBody] routine with
    its stream listeners, the five consumption methods, [clone],
    [extractContentType] and [getTotalBytes].

    Conventions.
    - A JavaScript string is its sequence of UTF-16 code units ([jsstring]).
    - A byte is a [Z] in [0, 255]; a Buffer is an object identity together
      with its bytes, so that "the same object" and "equal bytes" differ.
    - Objects are allocated from a counter kept in the [world]; the world
      also holds the pipe table and the readable queues of the streams.
    - An async method is split at its [await]: the part that runs when the
      method is called, and the continuation that runs on the awaited
      buffer. *)

From Stdlib Require Import ZArith List String Ascii Bool Lia DecimalString.
From stdpp Require Import gmap strings.
Import ListNotations.

Local Open Scope Z_scope.

(** ** Strings and bytes *)

Module Text.

Definition jsstring := list Z.

(** A literal: every character of an ASCII source literal is one code unit. *)
Fixpoint str (s : string) : jsstring :=
  match s with
  | EmptyString => []
  | String c r => Z.of_N (N_of_ascii c) :: str r
  end.

(** Template-literal rendering of an integer-valued number. *)
Definition num_to_str (n : Z) : jsstring :=
  str (NilZero.string_of_int (Z.to_int n)).

(** Template-literal rendering of a property that may be undefined. *)
Definition tmpl (s : option jsstring) : jsstring :=
  match s with
  | Some s => s
  | None => str "undefined"
  end.

Definition is_high_surrogate (u : Z) : bool := (0xD800 <=? u) && (u <=? 0xDBFF).
Definition is_low_surrogate (u : Z) : bool := (0xDC00 <=? u) && (u <=? 0xDFFF).

(** UTF-8 bytes of one code point. *)
Definition encode_cp (cp : Z) : list Z :=
  if cp <? 0x80 then [cp]
  else if cp <? 0x800 then
    [Z.lor 0xC0 (Z.shiftr cp 6); Z.lor 0x80 (Z.land cp 0x3F)]
  else if cp <? 0x10000 then
    [Z.lor 0xE0 (Z.shiftr cp 12);
     Z.lor 0x80 (Z.land (Z.shiftr cp 6) 0x3F);
     Z.lor 0x80 (Z.land cp 0x3F)]
  else
    [Z.lor 0xF0 (Z.shiftr cp 18);
     Z.lor 0x80 (Z.land (Z.shiftr cp 12) 0x3F);
     Z.lor 0x80 (Z.land (Z.shiftr cp 6) 0x3F);
     Z.lor 0x80 (Z.land cp 0x3F)].

(** [Buffer.from(string)] with the default encoding: surrogate pairs are
    combined, a lone surrogate becomes U+FFFD. *)
Fixpoint utf8_encode (s : jsstring) : list Z :=
  match s with
  | [] => []
  | u :: rest =>
    if is_high_surrogate u then
      match rest with
      | v :: rest' =>
        if is_low_surrogate v then
          encode_cp (0x10000 + Z.shiftl (u - 0xD800) 10 + (v - 0xDC00))
            ++ utf8_encode rest'
        else encode_cp 0xFFFD ++ utf8_encode rest
      | [] => encode_cp 0xFFFD
      end
    else if is_low_surrogate u then encode_cp 0xFFFD ++ utf8_encode rest
    else encode_cp u ++ utf8_encode rest
  end.

(** [Buffer.byteLength(string)]. *)
Definition byteLength (s : jsstring) : Z := Z.of_nat (length (utf8_encode s)).

(** The UTF-8 decoder behind [buffer.toString()]: ill-formed input is
    replaced by U+FFFD, one replacement per maximal ill-formed prefix. *)
Inductive dec_state :=
| Idle
| Cont (cp : Z) (remaining : nat) (lower upper : Z).

Definition decode_lead (b : Z) : list Z * dec_state :=
  if b <=? 0x7F then ([b], Idle)
  else if (0xC2 <=? b) && (b <=? 0xDF) then
    ([], Cont (Z.land b 0x1F) 1 0x80 0xBF)
  else if (0xE0 <=? b) && (b <=? 0xEF) then
    ([], Cont (Z.land b 0xF) 2
              (if b =? 0xE0 then 0xA0 else 0x80)
              (if b =? 0xED then 0x9F else 0xBF))
  else if (0xF0 <=? b) && (b <=? 0xF4) then
    ([], Cont (Z.land b 0x7) 3
              (if b =? 0xF0 then 0x90 else 0x80)
              (if b =? 0xF4 then 0x8F else 0xBF))
  else ([0xFFFD], Idle).

Definition decode_step (st : dec_state) (b : Z) : list Z * dec_state :=
  match st with
  | Idle => decode_lead b
  | Cont cp remaining lower upper =>
    if (lower <=? b) && (b <=? upper) then
      let cp' := Z.lor (Z.shiftl cp 6) (Z.land b 0x3F) in
      match remaining with
      | 1%nat => ([cp'], Idle)
      | _ => ([], Cont cp' (pred remaining) 0x80 0xBF)
      end
    else
      let '(out, st') := decode_lead b in (0xFFFD :: out, st')
  end.

Fixpoint decode_from (st : dec_state) (bytes : list Z) : list Z :=
  match bytes with
  | [] => match st with Idle => [] | Cont _ _ _ _ => [0xFFFD] end
  | b :: rest =>
    let '(out, st') := decode_step st b in out ++ decode_from st' rest
  end.

Definition cp_to_utf16 (cp : Z) : jsstring :=
  if cp <? 0x10000 then [cp]
  else [0xD800 + Z.shiftr (cp - 0x10000) 10;
        0xDC00 + Z.land (cp - 0x10000) 0x3FF].

Definition utf8_decode (bytes : list Z) : jsstring :=
  flat_map cp_to_utf16 (decode_from Idle bytes).

(** [String.prototype.toLowerCase] on header values.  The Headers container
    only admits code units up to 0xFF in a value; on those, the letters with
    a lower-case form are A-Z and the Latin-1 capitals 0xC0-0xDE without
    0xD7.  Larger code units are left as they are. *)
Definition lower_unit (u : Z) : Z :=
  if (0x41 <=? u) && (u <=? 0x5A) then u + 0x20
  else if (0xC0 <=? u) && (u <=? 0xDE) && negb (u =? 0xD7) then u + 0x20
  else u.

Definition toLowerCase (s : jsstring) : jsstring := map lower_unit s.

End Text.
Export Text.

(** ** Errors (fetch-error.js) and completions *)

(** The error object a stream hands to its 'error' listeners. *)
Record system_error := {
  sys_message : jsstring;
  sys_code : option jsstring
}.

(** The fields a FetchError instance carries besides its name. *)
Record fetch_error := {
  message : jsstring;
  type : jsstring;
  code : option jsstring
}.

(** [new FetchError(message, type, systemError)]: the code is copied from
    the system error when one is given. *)
Definition FetchError (message type : jsstring) (systemError : option system_error)
  : fetch_error :=
  {| message := message;
     type := type;
     code := match systemError with
             | Some e => sys_code e
             | None => None
             end |}.

Inductive jserror :=
| Error (message : jsstring)          (* new Error(message) *)
| TypeError (message : jsstring)      (* raised by the engine *)
| SyntaxError (text : jsstring)       (* raised by the JSON parser on text *)
| Fetch (e : fetch_error).            (* a FetchError instance *)

(** The [type] property of an error value; only a FetchError has one. *)
Definition error_type (e : jserror) : option jsstring :=
  match e with
  | Fetch f => Some (type f)
  | _ => None
  end.

(** Outcome of a synchronous call. *)
Inductive completion (A : Type) :=
| Return (a : A)
| Throw (e : jserror).
Arguments Return {A} a.
Arguments Throw {A} e.

(** State of a promise that has settled. *)
Inductive settled (A : Type) :=
| Resolved (a : A)
| Rejected (e : jserror).
Arguments Resolved {A} a.
Arguments Rejected {A} e.

(** [resolve]/[reject] of a promise: only the first call has an effect. *)
Definition settle {A} (p : option (settled A)) (r : settled A) : option (settled A) :=
  match p with
  | None => Some r
  | Some _ => p
  end.

(** ** Body values *)

Record Buffer := {
  buf_id : nat;
  buf_bytes : list Z
}.

(** Modelled from the spec: Blob.js is not part of the sources at hand.  A
    Blob exposes its [type], its [size] and, under the BUFFER symbol, its
    backing bytes. *)
Record Blob := {
  blob_id : nat;
  blob_type : jsstring;
  blob_size : Z;
  blob_BUFFER : Buffer
}.

(** A Stream instance.  A multipart form (the form-data module) is a stream
    too; it is told apart by the methods it offers: [getBoundary],
    [getLengthSync], and either the array [_lengthRetrievers] (1.x) or the
    method [hasKnownLength] (2.x).  A method that is present is given by
    the value it returns. *)
Record Stream := {
  stream_id : nat;
  getBoundary : option jsstring;
  getLengthSync : option Z;
  _lengthRetrievers : option (list nat);
  hasKnownLength : option bool
}.

(** Values outside the shapes the constructor knows, with their
    [String(...)] conversion. *)
Inductive other :=
| OBool (b : bool)
| OPlainObject
| OObject (toString : jsstring).

Definition String_ (o : other) : jsstring :=
  match o with
  | OBool true => str "true"
  | OBool false => str "false"
  | OPlainObject => str "[object Object]"
  | OObject s => s
  end.

Inductive value :=
| VNull
| VUndefined
| VString (s : jsstring)
| VBlob (b : Blob)
| VBuffer (b : Buffer)
| VStream (s : Stream)
| VOther (o : other).

(** ** The world: object allocation and stream plumbing *)

Record world := {
  next_id : nat;
  pipes : gmap nat (list nat);          (* stream id -> piped destinations *)
  readable : gmap nat (list Buffer)     (* pass-through id -> chunks to read *)
}.


Definition Buffer_new (bytes : list Z) (w : world) : Buffer * world :=
  ({| buf_id := next_id w; buf_bytes := bytes |},
   {| next_id := S (next_id w); pipes := pipes w; readable := readable w |}).

(** [Buffer.alloc(0)], [Buffer.from(string)], [Buffer.concat(list)] and
    [buffer.toString()]. *)
Definition Buffer_alloc0 (w : world) : Buffer * world := Buffer_new [] w.

Definition Buffer_from (s : jsstring) (w : world) : Buffer * world :=
  Buffer_new (utf8_encode s) w.

Definition Buffer_concat (l : list Buffer) (w : world) : Buffer * world :=
  Buffer_new (concat (map buf_bytes l)) w.

Definition Buffer_toString (b : Buffer) : jsstring := utf8_decode (buf_bytes b).

Definition chunk_length (b : Buffer) : Z := Z.of_nat (length (buf_bytes b)).

(** [new PassThrough()]: a fresh stream with none of the form methods,
    nothing piped out of it and nothing to read yet. *)
Definition PassThrough (w : world) : Stream * world :=
  ({| stream_id := next_id w; getBoundary := None; getLengthSync := None;
      _lengthRetrievers := None; hasKnownLength := None |},
   {| next_id := S (next_id w);
      pipes := <[next_id w := []]> (pipes w);
      readable := <[next_id w := []]> (readable w) |}).

Definition dests (w : world) (src : nat) : list nat :=
  default [] (pipes w !! src).

Definition chunks (w : world) (s : nat) : list Buffer :=
  default [] (readable w !! s).

(** [src.pipe(dest)]. *)
Definition pipe (src dest : Stream) (w : world) : world :=
  {| next_id := next_id w;
     pipes := <[stream_id src := dests w (stream_id src) ++ [stream_id dest]]> (pipes w);
     readable := readable w |}.

(** A pass-through makes every chunk written to it readable. *)
Definition write (chunk : Buffer) (rd : gmap nat (list Buffer)) (dest : nat)
  : gmap nat (list Buffer) :=
  <[dest := default [] (rd !! dest) ++ [chunk]]> rd.

(** The stream [src] produces a chunk: it is written to each destination
    piped from it, in the order they were piped. *)
Definition emit (src : nat) (chunk : Buffer) (w : world) : world :=
  {| next_id := next_id w;
     pipes := pipes w;
     readable := fold_left (write chunk) (dests w src) (readable w) |}.

Definition emit_all (src : nat) (cs : list Buffer) (w : world) : world :=
  fold_left (fun w c => emit src c w) cs w.

(** ** Holders *)

(** What the mixin reads of a Request or Response: the fields the
    [Body] constructor sets, the holder's [url], and what
    [headers.get('content-type')] gives (absent when there is none). *)
Record holder := {
  body : value;
  DISTURBED : bool;
  size : Z;
  timeout : Z;
  url : option jsstring;
  content_type : option jsstring
}.

Definition set_DISTURBED (this : holder) (d : bool) : holder :=
  {| body := body this; DISTURBED := d; size := size this;
     timeout := timeout this; url := url this;
     content_type := content_type this |}.

Definition set_body (this : holder) (b : value) : holder :=
  {| body := b; DISTURBED := DISTURBED this; size := size this;
     timeout := timeout this; url := url this;
     content_type := content_type this |}.

Record options := {
  opt_size : option Z;
  opt_timeout : option Z
}.

(** [Body.call(this, body, opts)]. *)
Definition Body (this : holder) (body : value) (opts : options) : holder :=
  let size := match opt_size opts with None => 0 | Some n => n end in
  let timeout := match opt_timeout opts with None => 0 | Some n => n end in
  let body :=
    match body with
    | VNull | VUndefined => VNull          (* body == null *)
    | VString s => VString s                (* typeof body === 'string' *)
    | VBlob b => VBlob b                    (* body instanceof Blob *)
    | VBuffer b => VBuffer b                (* Buffer.isBuffer(body) *)
    | VStream s => VStream s                (* body instanceof Stream *)
    | VOther o => VString (String_ o)       (* coerce to string *)
    end in
  {| body := body; DISTURBED := false; size := size; timeout := timeout;
     url := url this; content_type := content_type this |}.

(** The [bodyUsed] getter. *)
Definition bodyUsed (this : holder) : bool := DISTURBED this.

(** ** Consumption *)

(** The body-timeout timer handle [resTimeout]. *)
Inductive timer :=
| NoTimer      (* never set: [this.timeout] is 0 *)
| Armed        (* [setTimeout] called, callback not yet run *)
| Fired        (* the callback has run *)
| Cleared.     (* [clearTimeout] called while armed *)

Definition setTimeout_if (timeout : Z) : timer :=
  if timeout =? 0 then NoTimer else Armed.

Definition clearTimeout (t : timer) : timer :=
  match t with
  | Armed => Cleared
  | _ => t
  end.

(** What the promise executor of [consumeBody] and its listeners share. *)
Record consumer := {
  accum : list Buffer;
  accumBytes : Z;
  abort : bool;
  resTimeout : timer;
  promise : option (settled Buffer)
}.

(** What [consumeBody] returns: a promise that is settled already, or the
    pending promise of a stream consumer. *)
Inductive consume_result :=
| Done (r : settled Buffer)
| Streaming (c : consumer).

Definition already_used (this : holder) : jserror :=
  Error (str "body used already for: " ++ tmpl (url this)).

(** [consumeBody.call(this)], up to its return: the whole function for the
    replayable shapes, and up to the end of the promise executor for a
    stream. *)
Definition consumeBody (this : holder) (w : world) : holder * world * consume_result :=
  if DISTURBED this then (this, w, Done (Rejected (already_used this)))
  else
    let this := set_DISTURBED this true in
    match body this with
    | VNull =>
      let '(b, w) := Buffer_alloc0 w in (this, w, Done (Resolved b))
    | VString s =>
      let '(b, w) := Buffer_from s w in (this, w, Done (Resolved b))
    | VBlob bl => (this, w, Done (Resolved (blob_BUFFER bl)))
    | VBuffer b => (this, w, Done (Resolved b))
    | VUndefined | VOther _ =>            (* not an instance of Stream *)
      let '(b, w) := Buffer_alloc0 w in (this, w, Done (Resolved b))
    | VStream _ =>
      (this, w,
       Streaming {| accum := []; accumBytes := 0; abort := false;
                    resTimeout := setTimeout_if (timeout this);
                    promise := None |})
    end.

(** Which branch of [consumeBody] a body value takes. *)
Inductive branch :=
| BrNull | BrString | BrBlob | BrBuffer | BrDefensive | BrStream.

Definition consume_branch (v : value) : branch :=
  match v with
  | VNull => BrNull
  | VString _ => BrString
  | VBlob _ => BrBlob
  | VBuffer _ => BrBuffer
  | VUndefined | VOther _ => BrDefensive
  | VStream _ => BrStream
  end.

(** What happens to a consumer: the stream's 'data', 'end' and 'error'
    events and the timer callback. *)
Inductive event :=
| EvData (chunk : option Buffer)      (* None: a null chunk *)
| EvEnd
| EvError (err : system_error)
| EvTimeout.

Definition body_timeout_error (this : holder) : jserror :=
  Fetch (FetchError
    (str "Response timeout while trying to fetch " ++ tmpl (url this)
       ++ str " (over " ++ num_to_str (timeout this) ++ str "ms)")
    (str "body-timeout") None).

Definition system_error_of (this : holder) (err : system_error) : jserror :=
  Fetch (FetchError
    (str "Invalid response body while trying to fetch " ++ tmpl (url this)
       ++ str ": " ++ sys_message err)
    (str "system") (Some err)).

Definition max_size_error (this : holder) : jserror :=
  Fetch (FetchError
    (str "content size at " ++ tmpl (url this) ++ str " over limit: "
       ++ num_to_str (size this))
    (str "max-size") None).

(** One listener run.  The timer callback only runs while the timer is
    armed. *)
Definition step (this : holder) (c : consumer) (w : world) (ev : event)
  : consumer * world :=
  match ev with
  | EvTimeout =>
    match resTimeout c with
    | Armed =>
      ({| accum := accum c; accumBytes := accumBytes c; abort := true;
          resTimeout := Fired;
          promise := settle (promise c) (Rejected (body_timeout_error this)) |}, w)
    | _ => (c, w)
    end
  | EvError err =>
    ({| accum := accum c; accumBytes := accumBytes c; abort := abort c;
        resTimeout := resTimeout c;
        promise := settle (promise c) (Rejected (system_error_of this err)) |}, w)
  | EvData chunk =>
    match chunk with
    | None => (c, w)
    | Some chunk =>
      if abort c then (c, w)
      else if negb (size this =? 0) && (accumBytes c + chunk_length chunk >? size this) then
        ({| accum := accum c; accumBytes := accumBytes c; abort := true;
            resTimeout := resTimeout c;
            promise := settle (promise c) (Rejected (max_size_error this)) |}, w)
      else
        ({| accum := accum c ++ [chunk];
            accumBytes := accumBytes c + chunk_length chunk;
            abort := abort c; resTimeout := resTimeout c;
            promise := promise c |}, w)
    end
  | EvEnd =>
    if abort c then (c, w)
    else
      let t := clearTimeout (resTimeout c) in
      let '(b, w) := Buffer_concat (accum c) w in
      ({| accum := accum c; accumBytes := accumBytes c; abort := abort c;
          resTimeout := t;
          promise := settle (promise c) (Resolved b) |}, w)
  end.

Fixpoint run (this : holder) (c : consumer) (w : world) (evs : list event)
  : consumer * world :=
  match evs with
  | [] => (c, w)
  | ev :: evs => let '(c, w) := step this c w ev in run this c w evs
  end.

(** The state of the promise [consumeBody] returned, once the given events
    have been delivered. *)
Definition promise_after (this : holder) (r : consume_result) (w : world)
    (evs : list event) : option (settled Buffer) * world :=
  match r with
  | Done s => (Some s, w)
  | Streaming c => let '(c, w) := run this c w evs in (promise c, w)
  end.

(** ** JSON text (the parser behind [json()])

    The grammar [JSON.parse] accepts.  A parsed value is kept as a syntax
    tree: a number by its lexeme, an object by its members in source
    order. *)

Module Json.

#[local] Unset Elimination Schemes.
Inductive json_value :=
| JNull
| JBool (b : bool)
| JNumber (lexeme : jsstring)
| JString (s : jsstring)
| JArray (items : list json_value)
| JObject (members : list (jsstring * json_value)).
#[local] Set Elimination Schemes.

Definition is_ws (c : Z) : bool :=
  (c =? 0x20) || (c =? 0x09) || (c =? 0x0A) || (c =? 0x0D).

Fixpoint skip_ws (s : jsstring) : jsstring :=
  match s with
  | c :: r => if is_ws c then skip_ws r else s
  | [] => []
  end.

Definition is_digit (c : Z) : bool := (0x30 <=? c) && (c <=? 0x39).

Fixpoint take_digits (s : jsstring) : jsstring * jsstring :=
  match s with
  | c :: r =>
    if is_digit c then let '(d, r') := take_digits r in (c :: d, r')
    else ([], s)
  | [] => ([], [])
  end.

Fixpoint strip_prefix (p s : jsstring) : option jsstring :=
  match p, s with
  | [], _ => Some s
  | a :: p', b :: s' => if a =? b then strip_prefix p' s' else None
  | _ :: _, [] => None
  end.

Definition hex_val (c : Z) : option Z :=
  if is_digit c then Some (c - 0x30)
  else if (0x41 <=? c) && (c <=? 0x46) then Some (c - 0x41 + 10)
  else if (0x61 <=? c) && (c <=? 0x66) then Some (c - 0x61 + 10)
  else None.

Definition escape (c : Z) : option Z :=
  if c =? 0x22 then Some 0x22            (* quotation mark *)
  else if c =? 0x5C then Some 0x5C       (* reverse solidus *)
  else if c =? 0x2F then Some 0x2F       (* solidus *)
  else if c =? 0x62 then Some 0x08       (* b *)
  else if c =? 0x66 then Some 0x0C       (* f *)
  else if c =? 0x6E then Some 0x0A       (* n *)
  else if c =? 0x72 then Some 0x0D       (* r *)
  else if c =? 0x74 then Some 0x09       (* t *)
  else None.

(** The characters of a string after its opening quotation mark. *)
Fixpoint parse_chars (s acc : jsstring) : option (jsstring * jsstring) :=
  match s with
  | [] => None
  | c :: r =>
    if c =? 0x22 then Some (rev acc, r)
    else if c =? 0x5C then
      match r with
      | e :: r' =>
        if e =? 0x75 then
          match r' with
          | h1 :: h2 :: h3 :: h4 :: r'' =>
            match hex_val h1, hex_val h2, hex_val h3, hex_val h4 with
            | Some a, Some b, Some c, Some d =>
              parse_chars r'' (((a * 16 + b) * 16 + c) * 16 + d :: acc)
            | _, _, _, _ => None
            end
          | _ => None
          end
        else
          match escape e with
          | Some u => parse_chars r' (u :: acc)
          | None => None
          end
      | [] => None
      end
    else if c <? 0x20 then None
    else parse_chars r (c :: acc)
  end.

(** A number: its lexeme and what follows it. *)
Definition parse_number (s : jsstring) : option (jsstring * jsstring) :=
  let '(sign, s) :=
    match s with
    | c :: r => if c =? 0x2D then ([c], r) else ([], s)
    | [] => ([], s)
    end in
  let int :=
    match s with
    | c :: r =>
      if c =? 0x30 then Some ([c], r)
      else if is_digit c then let '(d, r') := take_digits r in Some (c :: d, r')
      else None
    | [] => None
    end in
  match int with
  | None => None
  | Some (i, s) =>
    let frac :=
      match s with
      | c :: r =>
        if c =? 0x2E then
          match take_digits r with
          | ([], _) => None
          | (d, r') => Some (c :: d, r')
          end
        else Some ([], s)
      | [] => Some ([], s)
      end in
    match frac with
    | None => None
    | Some (f, s) =>
      let exp :=
        match s with
        | c :: r =>
          if (c =? 0x65) || (c =? 0x45) then
            let '(sg, r) :=
              match r with
              | g :: r' => if (g =? 0x2B) || (g =? 0x2D) then ([g], r') else ([], r)
              | [] => ([], r)
              end in
            match take_digits r with
            | ([], _) => None
            | (d, r') => Some (c :: sg ++ d, r')
            end
          else Some ([], s)
        | [] => Some ([], s)
        end in
      match exp with
      | None => None
      | Some (e, s) => Some (sign ++ i ++ f ++ e, s)
      end
    end
  end.

Fixpoint parse_value (fuel : nat) (s : jsstring) : option (json_value * jsstring) :=
  match fuel with
  | O => None
  | S fuel =>
    match skip_ws s with
    | [] => None
    | c :: r =>
      if c =? 0x7B then                       (* left curly bracket *)
        match skip_ws r with
        | c' :: r' =>
          if c' =? 0x7D then Some (JObject [], r')
          else parse_members fuel (c' :: r') []
        | [] => None
        end
      else if c =? 0x5B then                  (* left square bracket *)
        match skip_ws r with
        | c' :: r' =>
          if c' =? 0x5D then Some (JArray [], r')
          else parse_elements fuel (c' :: r') []
        | [] => None
        end
      else if c =? 0x22 then
        match parse_chars r [] with
        | Some (chars, r') => Some (JString chars, r')
        | None => None
        end
      else
        match strip_prefix (str "true") (c :: r) with
        | Some r' => Some (JBool true, r')
        | None =>
        match strip_prefix (str "false") (c :: r) with
        | Some r' => Some (JBool false, r')
        | None =>
        match strip_prefix (str "null") (c :: r) with
        | Some r' => Some (JNull, r')
        | None =>
        match parse_number (c :: r) with
        | Some (n, r') => Some (JNumber n, r')
        | None => None
        end end end end
    end
  end
with parse_elements (fuel : nat) (s : jsstring) (acc : list json_value)
  : option (json_value * jsstring) :=
  match fuel with
  | O => None
  | S fuel =>
    match parse_value fuel s with
    | None => None
    | Some (v, r) =>
      match skip_ws r with
      | c :: r' =>
        if c =? 0x2C then parse_elements fuel r' (v :: acc)
        else if c =? 0x5D then Some (JArray (rev (v :: acc)), r')
        else None
      | [] => None
      end
    end
  end
with parse_members (fuel : nat) (s : jsstring) (acc : list (jsstring * json_value))
  : option (json_value * jsstring) :=
  match fuel with
  | O => None
  | S fuel =>
    match skip_ws s with
    | q :: r =>
      if q =? 0x22 then
        match parse_chars r [] with
        | None => None
        | Some (k, r) =>
          match skip_ws r with
          | c :: r =>
            if c =? 0x3A then
              match parse_value fuel r with
              | None => None
              | Some (v, r) =>
                match skip_ws r with
                | c :: r' =>
                  if c =? 0x2C then parse_members fuel r' ((k, v) :: acc)
                  else if c =? 0x7D then Some (JObject (rev ((k, v) :: acc)), r')
                  else None
                | [] => None
                end
              end
            else None
          | [] => None
          end
        end
      else None
    | [] => None
    end
  end.

(** [parseJson(txt)]: the parsed value, or the parser's SyntaxError thrown
    on.  The message of that error depends on the engine; the error is
    represented by the text it was raised on. *)
Definition parseJson (txt : jsstring) : completion json_value :=
  match parse_value (2 * length txt + 2) txt with
  | Some (v, rest) =>
    match skip_ws rest with
    | [] => Return v
    | _ :: _ => Throw (SyntaxError txt)
    end
  | None => Throw (SyntaxError txt)
  end.

End Json.
Export Json.

(** A quoted JSON string literal. *)
Definition quoted (s : string) : jsstring := [0x22] ++ str s ++ [0x22].

(** ** The consumption methods *)

(** An async method stopped at its [await]: the promise it waits for and
    what it does with the buffer once that promise has resolved. *)
Record async (A : Type) := {
  awaited : consume_result;
  resume : Buffer -> world -> settled A * world
}.
Arguments awaited {A} a.
Arguments resume {A} a.

Record ArrayBuffer := {
  ab_id : nat;
  ab_bytes : list Z
}.

(** [ArrayBuffer.prototype.slice.call(buf.buffer, ...)]: a copy of the bytes
    in a new ArrayBuffer. *)
Definition ArrayBuffer_slice (buf : Buffer) (w : world) : ArrayBuffer * world :=
  ({| ab_id := next_id w; ab_bytes := buf_bytes buf |},
   {| next_id := S (next_id w); pipes := pipes w; readable := readable w |}).

(** [Object.assign(new Blob([], {type}), {[BUFFER]: buf})]. *)
Definition Blob_around (type : jsstring) (buf : Buffer) (w : world) : Blob * world :=
  ({| blob_id := next_id w; blob_type := type;
      blob_size := chunk_length buf; blob_BUFFER := buf |},
   {| next_id := S (next_id w); pipes := pipes w; readable := readable w |}).

Definition arrayBuffer (this : holder) (w : world)
  : holder * world * async ArrayBuffer :=
  let '(this, w, p) := consumeBody this w in
  (this, w,
   {| awaited := p;
      resume := fun buf w =>
        let '(ab, w) := ArrayBuffer_slice buf w in (Resolved ab, w) |}).

Definition blob (this : holder) (w : world) : holder * world * async Blob :=
  let ct := match content_type this with Some ct => ct | None => [] end in
  let '(this, w, p) := consumeBody this w in
  (this, w,
   {| awaited := p;
      resume := fun buf w =>
        let '(b, w) := Blob_around (toLowerCase ct) buf w in (Resolved b, w) |}).

Definition json (this : holder) (w : world) : holder * world * async json_value :=
  let '(this, w, p) := consumeBody this w in
  (this, w,
   {| awaited := p;
      resume := fun buffer w =>
        match parseJson (Buffer_toString buffer) with
        | Return v => (Resolved v, w)
        | Throw e => (Rejected e, w)
        end |}).

Definition text (this : holder) (w : world) : holder * world * async jsstring :=
  let '(this, w, p) := consumeBody this w in
  (this, w,
   {| awaited := p;
      resume := fun buffer w => (Resolved (Buffer_toString buffer), w) |}).

(** [buffer()] is not async: it hands out the promise of [consumeBody]. *)
Definition buffer (this : holder) (w : world) : holder * world * async Buffer :=
  let '(this, w, p) := consumeBody this w in
  (this, w, {| awaited := p; resume := fun buf w => (Resolved buf, w) |}).

(** The promise a method returned, once the given stream events have been
    delivered: still pending ([None]), or settled. *)
Definition outcome {A} (this : holder) (a : async A) (w : world) (evs : list event)
  : option (settled A) * world :=
  let '(p, w) := promise_after this (awaited a) w evs in
  match p with
  | None => (None, w)
  | Some (Resolved b) => let '(r, w) := resume a b w in (Some r, w)
  | Some (Rejected e) => (Some (Rejected e), w)
  end.

(** The five methods by name, for statements about all of them: what a
    call does before it first suspends. *)
Inductive method := Mbuffer | Mtext | Mjson | Mblob | MarrayBuffer.


(** ** Clone and the helpers *)

(** [clone(instance)]. *)
Definition clone (instance : holder) (w : world)
  : holder * world * completion value :=
  let body_ := body instance in
  if bodyUsed instance then
    (instance, w, Throw (Error (str "cannot clone body after it is used")))
  else
    match body_ with
    | VStream s =>
      match getBoundary s with
      | None =>
        let '(p1, w) := PassThrough w in
        let '(p2, w) := PassThrough w in
        let w := pipe s p1 w in
        let w := pipe s p2 w in
        (set_body instance (VStream p1), w, Return (VStream p2))
      | Some _ => (instance, w, Return body_)
      end
    | _ => (instance, w, Return body_)
    end.

(** [extractContentType(instance)]; [None] is the [null] it returns.
    Reading a property of [undefined] throws. *)
Definition extractContentType (instance : holder) : completion (option jsstring) :=
  match body instance with
  | VNull => Return None
  | VString _ => Return (Some (str "text/plain;charset=UTF-8"))
  | VBlob b =>
    Return (match blob_type b with [] => None | t => Some t end)
  | VBuffer _ => Return None
  | VUndefined =>
    Throw (TypeError (str "Cannot read property 'getBoundary' of undefined"))
  | VStream s =>
    match getBoundary s with
    | Some boundary => Return (Some (str "multipart/form-data;boundary=" ++ boundary))
    | None => Return None
    end
  | VOther _ => Return None
  end.

(** [getTotalBytes(instance)]; [None] is the [null] it returns. *)
Definition getTotalBytes (instance : holder) : option Z :=
  match body instance with
  | VNull => Some 0
  | VString s => Some (byteLength s)
  | VBlob b => Some (blob_size b)
  | VBuffer b => Some (chunk_length b)
  | VStream s =>
    match getLengthSync s with
    | Some len =>
      if match _lengthRetrievers s with
         | Some l => (length l =? 0)%nat
         | None => false
         end
         || match hasKnownLength s with
            | Some known => known
            | None => false
            end
      then Some len
      else None
    | None => None
    end
  | VUndefined | VOther _ => None
  end.

(** ** Writing a body out ([writeToStream]) *)

(** What [dest.write] is given: a string (the destination encodes it as
    UTF-8) or a buffer. *)
Inductive written :=
| WString (s : jsstring)
| WBuffer (b : Buffer).

(** The bytes a written chunk puts on the wire. *)
Definition wire (c : written) : list Z :=
  match c with
  | WString s => utf8_encode s
  | WBuffer b => buf_bytes b
  end.

(** A writable destination: its identity, what has been written to it
    directly and whether [end] has been called.  What is piped into it
    arrives in the world's queue of its identity. *)
Record writable := {
  wr_id : nat;
  wr_log : list written;
  wr_ended : bool
}.

(** [dest.write(chunk)]: nothing is written once the destination has
    ended. *)
Definition dest_write (chunk : written) (dest : writable) : writable :=
  if wr_ended dest then dest
  else {| wr_id := wr_id dest; wr_log := wr_log dest ++ [chunk];
          wr_ended := false |}.

(** [dest.end()]. *)
Definition dest_end (dest : writable) : writable :=
  {| wr_id := wr_id dest; wr_log := wr_log dest; wr_ended := true |}.

(** The destination as the target of [pipe]. *)
Definition as_stream (dest : writable) : Stream :=
  {| stream_id := wr_id dest; getBoundary := None; getLengthSync := None;
     _lengthRetrievers := None; hasKnownLength := None |}.

(** [writeToStream(dest, instance)].  A value that is neither of the four
    replayable shapes is asked for its [pipe] method: undefined has no
    properties and the other values have no such method. *)
Definition writeToStream (dest : writable) (instance : holder) (w : world)
  : writable * world * completion unit :=
  match body instance with
  | VNull => (dest_end dest, w, Return tt)
  | VString s => (dest_end (dest_write (WString s) dest), w, Return tt)
  | VBlob b => (dest_end (dest_write (WBuffer (blob_BUFFER b)) dest), w, Return tt)
  | VBuffer b => (dest_end (dest_write (WBuffer b) dest), w, Return tt)
  | VStream s => (dest, pipe s (as_stream dest) w, Return tt)
  | VUndefined =>
    (dest, w, Throw (TypeError (str "Cannot read property 'pipe' of undefined")))
  | VOther _ => (dest, w, Throw (TypeError (str "body.pipe is not a function")))
  end.

(** ** Mixing the methods into a prototype ([Body.mixIn]) *)

(** A property descriptor: the [bodyUsed] getter, one of the five methods,
    or a property of the target's own, told apart by a tag. *)
Inductive descriptor :=
| GetBodyUsed
| Method (m : method)
| Foreign (tag : nat).

(** An object as [mixIn] sees it: its own properties, and the names it
    inherits along its prototype chain. *)
Record object := {
  own : gmap string descriptor;
  inherited : gset string
}.

(** [Object.getOwnPropertyNames(Body.prototype)] with the descriptors. *)
Definition Body_prototype : list (string * descriptor) :=
  [("bodyUsed", GetBodyUsed); ("arrayBuffer", Method MarrayBuffer);
   ("blob", Method Mblob); ("json", Method Mjson); ("text", Method Mtext);
   ("buffer", Method Mbuffer)]%string.

(** [name in proto]. *)
Definition has_property (name : string) (proto : object) : bool :=
  bool_decide (is_Some (own proto !! name)) || bool_decide (name ∈ inherited proto).

(** [Object.defineProperty(proto, name, desc)]. *)
Definition defineProperty (proto : object) (name : string) (desc : descriptor) : object :=
  {| own := <[name := desc]> (own proto); inherited := inherited proto |}.

(** One turn of the loop of [mixIn], and the loop over a list of names. *)
Definition mix_one (proto : object) (entry : string * descriptor) : object :=
  if has_property entry.1 proto then proto
  else defineProperty proto entry.1 entry.2.

Definition mix (entries : list (string * descriptor)) (proto : object) : object :=
  fold_left mix_one entries proto.

(** [Body.mixIn(proto)]. *)
Definition mixIn (proto : object) : object := mix Body_prototype proto.

(** * Vocabulary of the statements *)

(** A Response-like holder before the constructor has run. *)
Definition blank (url : option jsstring) (content_type : option jsstring) : holder :=
  {| body := VNull; DISTURBED := false; size := 0; timeout := 0;
     url := url; content_type := content_type |}.

(** The default [opts = {}]. *)
Definition no_options : options := {| opt_size := None; opt_timeout := None |}.

(** [new Response(body)] as far as the mixin is concerned. *)
Definition Response (body : value) (opts : options) : holder :=
  Body (blank None None) body opts.

(** A stream that offers none of the form methods. *)
Definition plain_stream (id : nat) : Stream :=
  {| stream_id := id; getBoundary := None; getLengthSync := None;
     _lengthRetrievers := None; hasKnownLength := None |}.

(** A form of the 2.x module, with its boundary, length and whether the
    length is known. *)
Definition form_stream (id : nat) (boundary : jsstring) (len : Z) (known : bool) : Stream :=
  {| stream_id := id; getBoundary := Some boundary; getLengthSync := Some len;
     _lengthRetrievers := None; hasKnownLength := Some known |}.

(** A world in which one object (id 0) exists already. *)
Definition world1 : world :=
  {| next_id := 1; pipes := ∅; readable := ∅ |}.

(** A chunk holding the bytes of an ASCII literal. *)
Definition chunk_of (id : nat) (s : string) : Buffer :=
  {| buf_id := id; buf_bytes := utf8_encode (str s) |}.

(** A form says its length is known when it has no length retrievers left
    (1.x) or when [hasKnownLength()] is true (2.x). *)
Definition reports_known_length (s : Stream) : Prop :=
  _lengthRetrievers s = Some [] \/ hasKnownLength s = Some true.

(** The byte count of a list of chunks. *)
Fixpoint total_length (cs : list Buffer) : Z :=
  match cs with
  | [] => 0
  | c :: cs => chunk_length c + total_length cs
  end.

(** The 'data' events that deliver the given chunks. *)
Definition data (cs : list Buffer) : list event :=
  map (fun c => EvData (Some c)) cs.

(** The consumer after it has taken in the chunks [cs]. *)
Definition pushed (c : consumer) (cs : list Buffer) : consumer :=
  {| accum := accum c ++ cs; accumBytes := accumBytes c + total_length cs;
     abort := abort c; resTimeout := resTimeout c; promise := promise c |}.

(** The consumer after the size check has failed. *)
Definition overflowed (this : holder) (c : consumer) : consumer :=
  {| accum := accum c; accumBytes := accumBytes c; abort := true;
     resTimeout := resTimeout c;
     promise := settle (promise c) (Rejected (max_size_error this)) |}.

(** [abort] is only ever set together with a rejection. *)
Definition consistent (c : consumer) : Prop :=
  abort c = true -> promise c <> None.

(** Which events are terminal for a consumer: a stream error, the timer
    callback of an armed timer, a chunk that fails the size check, and the
    end of the stream. *)
Definition terminal (this : holder) (c : consumer) (ev : event) : bool :=
  match ev with
  | EvError _ => true
  | EvTimeout => match resTimeout c with Armed => true | _ => false end
  | EvData (Some x) =>
    negb (size this =? 0) && (accumBytes c + chunk_length x >? size this)
  | EvData None => false
  | EvEnd => true
  end.

(** A response whose body is a stream, read under [size: 5]. *)
Definition capped : holder :=
  Response (VStream (plain_stream 0)) {| opt_size := Some 5; opt_timeout := None |}.

(** The consumer [consumeBody] sets up for it. *)
Definition capped_start : consumer :=
  {| accum := []; accumBytes := 0; abort := false; resTimeout := NoTimer;
     promise := None |}.

(** A response whose body is a stream, read under [size: 5] and
    [timeout: 100]. *)
Definition timed : holder :=
  Response (VStream (plain_stream 0)) {| opt_size := Some 5; opt_timeout := Some 100 |}.

(** An error as the inflater emits it on the stream. *)
Definition reset_error : system_error :=
  {| sys_message := str "incorrect header check"; sys_code := Some (str "Z_DATA_ERROR") |}.

(** The consumer [consumeBody] sets up for [timed]: the timer is armed. *)
Definition timed_start : consumer :=
  {| accum := []; accumBytes := 0; abort := false; resTimeout := Armed;
     promise := None |}.

(** The stream is an object of this world, and so is everything piped from
    it so far. *)
Definition known (w : world) (s : Stream) : Prop :=
  (stream_id s < next_id w)%nat
  /\ Forall (fun d => (d < next_id w)%nat) (dests w (stream_id s)).

(** The world after [clone] has teed the stream [s]. *)
Definition teed (s : Stream) (w : world) : world :=
  pipe s (PassThrough (PassThrough w).2).1
    (pipe s (PassThrough w).1 (PassThrough (PassThrough w).2).2).

(** The chunks of the 'data' events among the events, null chunks left
    out. *)
Fixpoint delivered (evs : list event) : list Buffer :=
  match evs with
  | [] => []
  | EvData (Some c) :: evs => c :: delivered evs
  | _ :: evs => delivered evs
  end.

(** The byte count kept by a consumer is that of its chunks, and stays
    within a positive cap. *)
Definition within_cap (this : holder) (c : consumer) : Prop :=
  accumBytes c = total_length (accum c)
  /\ (0 < size this -> accumBytes c <= size this)
  /\ (0 < size this ->
      forall b, promise c = Some (Resolved b) -> chunk_length b <= size this).

(** What a consumer has settled with, in terms of the events seen so far:
    while pending it holds the chunks delivered and the stream has not
    ended; once resolved, the buffer holds the chunks delivered before the
    first end. *)
Definition tracks (seen : list event) (c : consumer) : Prop :=
  consistent c
  /\ (promise c = None -> accum c = delivered seen /\ ~ In EvEnd seen)
  /\ (forall b, promise c = Some (Resolved b) ->
      exists pre post,
        seen = pre ++ EvEnd :: post /\ ~ In EvEnd pre
        /\ buf_bytes b = concat (map buf_bytes (delivered pre))).

(** Where a rejection comes from, in terms of the events seen so far. *)
Definition explained (this : holder) (seen : list event) (e : jserror) : Prop :=
  (exists err, In (EvError err) seen /\ e = system_error_of this err)
  \/ (e = body_timeout_error this /\ timeout this <> 0 /\ In EvTimeout seen)
  \/ (e = max_size_error this /\ size this <> 0
      /\ exists x, In (EvData (Some x)) seen).

Definition accounted (this : holder) (seen : list event) (c : consumer) : Prop :=
  (resTimeout c = Armed -> timeout this <> 0)
  /\ forall e, promise c = Some (Rejected e) -> explained this seen e.

(** Whether a promise is pending, resolved, or rejected with an error. *)
Definition status {A} (p : option (settled A)) : option (option jserror) :=
  match p with
  | None => None
  | Some (Resolved _) => Some None
  | Some (Rejected e) => Some (Some e)
  end.

(** A body whose bytes are at hand, a Blob being one whose [size] is the
    length of its backing buffer (an open Blob). *)
Definition replayable (v : value) : Prop :=
  match v with
  | VNull | VString _ | VBuffer _ => True
  | VBlob b => blob_size b = chunk_length (blob_BUFFER b)
  | _ => False
  end.

(** All the bytes written directly to a destination. *)
Definition wire_bytes (dest : writable) : list Z :=
  concat (map wire (wr_log dest)).

(** A code unit that is an ASCII capital letter. *)
Definition is_capital (u : Z) : Prop := 0x41 <= u <= 0x5A.

(** A Unicode scalar value: a code point that is not a surrogate. *)
Definition scalar (cp : Z) : Prop :=
  0 <= cp < 0x110000 /\ ~ (0xD800 <= cp <= 0xDFFF).

(** A well-formed string: 16-bit code units in which every high surrogate
    is followed by a low one and no low surrogate stands alone. *)
Fixpoint well_formed (s : jsstring) : bool :=
  match s with
  | [] => true
  | u :: rest =>
    if is_high_surrogate u then
      match rest with
      | v :: rest' => is_low_surrogate v && well_formed rest'
      | [] => false
      end
    else negb (is_low_surrogate u) && (0 <=? u) && (u <=? 0xFFFF)
         && well_formed rest
  end.

(** A consumer that has resolved has no armed timer, and without a
    [timeout] there is no timer at all. *)
Definition disarmed (this : holder) (c : consumer) : Prop :=
  (forall b, promise c = Some (Resolved b) -> resTimeout c <> Armed)
  /\ (timeout this = 0 -> resTimeout c = NoTimer).

(** What a byte is. *)
Definition is_byte (b : Z) : Prop := 0 <= b < 256.

(** * Properties *)

(** ** The text and JSON models on samples *)

Example utf8_encode_ascii : utf8_encode (str "a=1") = [97; 61; 49].
Proof. reflexivity. Qed.

Example utf8_encode_euro : utf8_encode [0x20AC] = [0xE2; 0x82; 0xAC].
Proof. reflexivity. Qed.

Example utf8_encode_pair : utf8_encode [0xD83D; 0xDE00] = [0xF0; 0x9F; 0x98; 0x80].
Proof. reflexivity. Qed.

Example utf8_encode_lone : utf8_encode [0xD83D; 0x41] = [0xEF; 0xBF; 0xBD; 0x41].
Proof. reflexivity. Qed.

Example utf8_decode_pair : utf8_decode [0xF0; 0x9F; 0x98; 0x80; 0x41] = [0xD83D; 0xDE00; 0x41].
Proof. reflexivity. Qed.

Example utf8_decode_bad : utf8_decode [0xE2; 0x82; 0x41; 0xFF] = [0xFFFD; 0x41; 0xFFFD].
Proof. reflexivity. Qed.

Example num_to_str_5 : num_to_str 5 = str "5" /\ num_to_str 120 = str "120".
Proof. split; reflexivity. Qed.

Example parseJson_object :
  parseJson (str "{" ++ quoted "a" ++ str ":1}")
  = Return (JObject [(str "a", JNumber (str "1"))]).
Proof. reflexivity. Qed.

Example parseJson_nested :
  parseJson (str " [1, " ++ quoted "x\n" ++ str ", {" ++ quoted "k"
             ++ str " : [true, null, -2.5e+3]} ] ")
  = Return (JArray [JNumber (str "1"); JString [0x78; 0x0A];
                    JObject [(str "k", JArray [JBool true; JNull;
                                               JNumber (str "-2.5e+3")])]]).
Proof. reflexivity. Qed.

Example parseJson_empty : parseJson [] = Throw (SyntaxError []).
Proof. reflexivity. Qed.

Example parseJson_trailing :
  parseJson (str "[1,]") = Throw (SyntaxError (str "[1,]"))
  /\ parseJson (str "01") = Throw (SyntaxError (str "01"))
  /\ parseJson (str "{} x") = Throw (SyntaxError (str "{} x")).
Proof. repeat split; reflexivity. Qed.

(** ** The encoder yields bytes *)

Lemma lor_byte (a b : Z) : is_byte a -> is_byte b -> is_byte (Z.lor a b).
Proof.
  unfold is_byte. intros [Ha Ha'] [Hb Hb']. split.
  - apply Z.lor_nonneg. split; assumption.
  - destruct (Z.eq_dec (Z.lor a b) 0) as [-> | Hne]; [lia |].
    assert (Hpos : 0 < Z.lor a b).
    { pose proof (proj2 (Z.lor_nonneg a b) (conj Ha Hb)). lia. }
    change 256 with (2 ^ 8). apply Z.log2_lt_pow2; [exact Hpos |].
    rewrite Z.log2_lor by assumption.
    apply Z.max_lub_lt.
    + destruct (Z.eq_dec a 0) as [-> | Hna]; [cbn; lia |].
      apply Z.log2_lt_pow2; [lia | exact Ha'].
    + destruct (Z.eq_dec b 0) as [-> | Hnb]; [cbn; lia |].
      apply Z.log2_lt_pow2; [lia | exact Hb'].
Qed.

Lemma land_63 (x : Z) : 0 <= Z.land x 0x3F < 64.
Proof.
  change 0x3F with (Z.ones 6). rewrite Z.land_ones by lia.
  apply Z.mod_pos_bound. reflexivity.
Qed.

Lemma continuation_byte (x : Z) : is_byte (Z.lor 0x80 (Z.land x 0x3F)).
Proof.
  apply lor_byte; unfold is_byte; [lia |]. pose proof (land_63 x). lia.
Qed.

Lemma shiftr_bound (x n k : Z) :
  0 <= n -> 0 <= x < k * 2 ^ n -> 0 <= Z.shiftr x n < k.
Proof.
  intros Hn [H0 H1]. rewrite Z.shiftr_div_pow2 by exact Hn.
  assert (0 < 2 ^ n) by (apply Z.pow_pos_nonneg; lia).
  split; [apply Z.div_pos; lia | apply Z.div_lt_upper_bound; lia].
Qed.

Ltac split_bytes :=
  repeat match goal with
         | |- Forall _ (_ :: _) => constructor
         | |- Forall _ [] => constructor
         end.

Lemma encode_cp_bytes (cp : Z) :
  0 <= cp < 0x110000 -> Forall is_byte (encode_cp cp).
Proof.
  intros [H0 H1]. unfold encode_cp.
  destruct (Z.ltb_spec cp 0x80); [split_bytes; unfold is_byte; lia |].
  destruct (Z.ltb_spec cp 0x800).
  { split_bytes; [| apply continuation_byte].
    apply lor_byte; unfold is_byte; [lia |].
    pose proof (shiftr_bound cp 6 32). lia. }
  destruct (Z.ltb_spec cp 0x10000).
  { split_bytes; try apply continuation_byte.
    apply lor_byte; unfold is_byte; [lia |].
    pose proof (shiftr_bound cp 12 16). lia. }
  split_bytes; try apply continuation_byte.
  apply lor_byte; unfold is_byte; [lia |].
  pose proof (shiftr_bound cp 18 8). lia.
Qed.

Lemma utf8_encode_bytes_upto (n : nat) (s : jsstring) :
  (length s <= n)%nat ->
  Forall (fun u => 0 <= u < 0x10000) s -> Forall is_byte (utf8_encode s).
Proof.
  assert (Hrep : Forall is_byte (encode_cp 0xFFFD)) by (apply encode_cp_bytes; lia).
  revert s. induction n as [|n IH]; intros s Hlen Hs.
  - destruct s; [constructor | cbn in Hlen; lia].
  - destruct s as [|u rest]; [constructor |].
    inversion Hs as [|? ? Hu Hrest]; subst. cbn [length] in Hlen.
    cbn [utf8_encode].
    destruct (is_high_surrogate u) eqn:Hh.
    + destruct rest as [|v rest']; [exact Hrep |].
      inversion Hrest as [|? ? Hv Hrest']; subst. cbn [length] in Hlen.
      destruct (is_low_surrogate v) eqn:Hl.
      * apply Forall_app. split.
        -- apply encode_cp_bytes.
           unfold is_high_surrogate in Hh. unfold is_low_surrogate in Hl.
           apply andb_true_iff in Hh as [Hh1 Hh2].
           apply andb_true_iff in Hl as [Hl1 Hl2].
           apply Z.leb_le in Hh1, Hh2, Hl1, Hl2.
           rewrite Z.shiftl_mul_pow2 by lia. lia.
        -- apply IH; [lia | exact Hrest'].
      * apply Forall_app. split; [exact Hrep |].
        apply IH; [cbn [length]; lia | exact Hrest].
    + destruct (is_low_surrogate u).
      * apply Forall_app. split; [exact Hrep |]. apply IH; [lia | exact Hrest].
      * apply Forall_app. split; [apply encode_cp_bytes; lia |].
        apply IH; [lia | exact Hrest].
Qed.

(** [Buffer.from] of a string of 16-bit code units holds bytes. *)
Lemma utf8_encode_bytes (s : jsstring) :
  Forall (fun u => 0 <= u < 0x10000) s -> Forall is_byte (utf8_encode s).
Proof. apply (utf8_encode_bytes_upto (length s)). lia. Qed.

(** ** The five methods and [consumeBody] *)






Example already_used_message :
  already_used (Response VNull no_options) = Error (str "body used already for: undefined").
Proof. reflexivity. Qed.

(** C3. Consuming an unused replayable body: a null body gives a new empty
    buffer, a string body a new buffer holding its UTF-8 encoding, a buffer
    body that very buffer object (nothing is allocated), a Blob body the
    buffer object behind the Blob (nothing is allocated). *)
Theorem consume_replayable (this : holder) (w : world) :
  bodyUsed this = false ->
  let '(_, w', r) := consumeBody this w in
  match body this with
  | VNull =>
    exists b, r = Done (Resolved b) /\ buf_bytes b = [] /\ buf_id b = next_id w
  | VString s =>
    exists b, r = Done (Resolved b) /\ buf_bytes b = utf8_encode s
              /\ buf_id b = next_id w
  | VBuffer b => r = Done (Resolved b) /\ w' = w
  | VBlob bl => r = Done (Resolved (blob_BUFFER bl)) /\ w' = w
  | _ => True
  end.
Proof.
  unfold bodyUsed, consumeBody. intros ->. cbn.
  destruct (body this); cbn; eauto.
Qed.

Lemma consume_replayable_witness :
  let b := {| buf_id := 0; buf_bytes := [1; 2; 3] |} in
  bodyUsed (Response (VBuffer b) no_options) = false
  /\ let '(_, w', r) := consumeBody (Response (VBuffer b) no_options) world1 in
     r = Done (Resolved b) /\ w' = world1.
Proof.
  split; [reflexivity |].
  apply (consume_replayable
           (Response (VBuffer {| buf_id := 0; buf_bytes := [1; 2; 3] |}) no_options)
           world1).
  reflexivity.
Defined.

Example text_of_string :
  let '(this, w, a) := text (Response (VString (str "a=1")) no_options) world1 in
  (outcome this a w []).1 = Some (Resolved (str "a=1")).
Proof. reflexivity. Qed.

Example text_of_stream :
  let '(this, w, a) := text (Response (VStream (plain_stream 0)) no_options) world1 in
  (outcome this a w [EvData (Some (chunk_of 1 "a=")); EvData (Some (chunk_of 2 "1"))]).1
  = None
  /\ (outcome this a w [EvData (Some (chunk_of 1 "a=")); EvData (Some (chunk_of 2 "1"));
                        EvEnd]).1
     = Some (Resolved (str "a=1")).
Proof. split; reflexivity. Qed.

Example blob_of_string :
  let res := Body (blank None (Some (str "Text/Plain"))) (VString (str "a=1")) no_options in
  let '(this, w, a) := blob res world1 in
  (outcome this a w []).1
  = Some (Resolved {| blob_id := 2; blob_type := str "text/plain"; blob_size := 3;
                      blob_BUFFER := {| buf_id := 1; buf_bytes := [97; 61; 49] |} |}).
Proof. reflexivity. Qed.

Example arrayBuffer_of_buffer :
  let b := {| buf_id := 0; buf_bytes := [1; 2; 3] |} in
  let '(this, w, a) := arrayBuffer (Response (VBuffer b) no_options) world1 in
  (outcome this a w []).1 = Some (Resolved {| ab_id := 1; ab_bytes := [1; 2; 3] |}).
Proof. reflexivity. Qed.

Example consume_string :
  (consumeBody (Response (VString (str "a=1")) no_options) world1).2
  = Done (Resolved {| buf_id := 1; buf_bytes := [97; 61; 49] |}).
Proof. reflexivity. Qed.

(** ** The helpers *)

(** C8. [extractContentType] returns [text/plain;charset=UTF-8] for a
    string; for a Blob its type, or null when the type is empty; null for a
    buffer; for a stream that offers [getBoundary],
    [multipart/form-data;boundary=] followed by the boundary it gives; and
    null for any other stream. *)
Theorem extractContentType_cases (instance : holder) :
  match body instance with
  | VString _ =>
    extractContentType instance = Return (Some (str "text/plain;charset=UTF-8"))
  | VBlob b =>
    extractContentType instance
    = Return (if decide (blob_type b = []) then None else Some (blob_type b))
  | VBuffer _ => extractContentType instance = Return None
  | VStream s =>
    (forall boundary, getBoundary s = Some boundary ->
       extractContentType instance
       = Return (Some (str "multipart/form-data;boundary=" ++ boundary)))
    /\ (getBoundary s = None -> extractContentType instance = Return None)
  | _ => True
  end.
Proof.
  unfold extractContentType. destruct (body instance) as [| |s|b|b|s|o]; try easy.
  - destruct (blob_type b); reflexivity.
  - split; [intros bd -> | intros ->]; reflexivity.
Qed.

Example extractContentType_form :
  extractContentType (Response (VStream (form_stream 0 (str "--x") 10 true)) no_options)
  = Return (Some (str "multipart/form-data;boundary=--x")).
Proof. reflexivity. Qed.

(** C9. [getTotalBytes] returns the UTF-8 byte length of a string, the size
    of a Blob, the length of a buffer; for a form (a stream that offers
    [getLengthSync]) the value of [getLengthSync()] if the form reports a
    known length and null if it does not; and null for a stream without
    that method. *)
Theorem getTotalBytes_cases (instance : holder) :
  match body instance with
  | VString s =>
    getTotalBytes instance = Some (Z.of_nat (length (utf8_encode s)))
  | VBlob b => getTotalBytes instance = Some (blob_size b)
  | VBuffer b => getTotalBytes instance = Some (Z.of_nat (length (buf_bytes b)))
  | VStream s =>
    match getLengthSync s with
    | Some len =>
      (reports_known_length s <-> getTotalBytes instance = Some len)
      /\ (~ reports_known_length s <-> getTotalBytes instance = None)
    | None => getTotalBytes instance = None
    end
  | _ => True
  end.
Proof.
  unfold getTotalBytes, reports_known_length.
  destruct (body instance) as [| |s|b|b|s|o]; try easy.
  destruct (getLengthSync s) as [len|]; [| reflexivity].
  destruct (_lengthRetrievers s) as [[|r l]|], (hasKnownLength s) as [[|]|]; cbn;
    intuition congruence.
Qed.

Example getTotalBytes_samples :
  getTotalBytes (Response (VString [0x20AC]) no_options) = Some 3
  /\ getTotalBytes (Response (VStream (form_stream 0 (str "b") 42 true)) no_options) = Some 42
  /\ getTotalBytes (Response (VStream (form_stream 0 (str "b") 42 false)) no_options) = None
  /\ getTotalBytes (Response (VStream (plain_stream 0)) no_options) = None.
Proof. repeat split; reflexivity. Qed.

(** ** The constructor *)

(** C10. The constructor stores null for null and undefined, keeps a
    string, Blob, buffer or stream as it is, and stores [String(body)] for
    any other value; consuming a body coerced in this way gives a new
    buffer with the UTF-8 bytes of that string ([[object Object]] for a
    plain object); and a holder as built by the constructor never takes the
    defensive branch of [consumeBody]. *)
Theorem Body_normalizes (this : holder) (v : value) (opts : options) (w : world) :
  (v = VNull \/ v = VUndefined -> body (Body this v opts) = VNull)
  /\ (forall o, v = VOther o ->
        body (Body this v opts) = VString (String_ o)
        /\ (consumeBody (Body this v opts) w).2
           = Done (Resolved {| buf_id := next_id w;
                               buf_bytes := utf8_encode (String_ o) |}))
  /\ (consume_branch v <> BrDefensive -> body (Body this v opts) = v)
  /\ consume_branch (body (Body this v opts)) <> BrDefensive
  /\ String_ OPlainObject = str "[object Object]".
Proof.
  repeat split.
  - intros [-> | ->]; reflexivity.
  - subst v. reflexivity.
  - subst v. reflexivity.
  - destruct v; cbn; congruence.
  - destruct v; cbn; congruence.
Qed.

Lemma Body_normalizes_witness :
  body (Response (VOther OPlainObject) no_options) = VString (str "[object Object]")
  /\ (consumeBody (Response (VOther OPlainObject) no_options) world1).2
     = Done (Resolved {| buf_id := 1;
                         buf_bytes := [91; 111; 98; 106; 101; 99; 116; 32;
                                       79; 98; 106; 101; 99; 116; 93] |}).
Proof.
  destruct (Body_normalizes (blank None None) (VOther OPlainObject) no_options world1)
    as (_ & H & _).
  exact (H OPlainObject eq_refl).
Defined.

Example Body_defaults :
  size (Response VUndefined no_options) = 0
  /\ timeout (Response VUndefined no_options) = 0
  /\ bodyUsed (Response VUndefined no_options) = false
  /\ size (Response VNull {| opt_size := Some 5; opt_timeout := Some 100 |}) = 5.
Proof. repeat split; reflexivity. Qed.

(** ** The stream consumer *)

Lemma chunk_length_nonneg (c : Buffer) : 0 <= chunk_length c.
Proof. unfold chunk_length. lia. Qed.

Lemma total_length_nonneg (cs : list Buffer) : 0 <= total_length cs.
Proof.
  induction cs as [|c cs IH]; cbn [total_length]; [lia |].
  pose proof (chunk_length_nonneg c). lia.
Qed.

Lemma total_length_app (xs ys : list Buffer) :
  total_length (xs ++ ys) = total_length xs + total_length ys.
Proof.
  induction xs as [|x xs IH]; cbn [total_length app]; [reflexivity | rewrite IH; lia].
Qed.

Lemma pushed_nil (c : consumer) : pushed c [] = c.
Proof.
  destruct c; unfold pushed; cbn. rewrite app_nil_r, Z.add_0_r. reflexivity.
Qed.

Lemma pushed_cons (c : consumer) (x : Buffer) (cs : list Buffer) :
  pushed (pushed c [x]) cs = pushed c (x :: cs).
Proof.
  unfold pushed; cbn. rewrite <- app_assoc. cbn. f_equal. lia.
Qed.

Lemma run_app (this : holder) (xs ys : list event) (c : consumer) (w : world) :
  run this c w (xs ++ ys) = let '(c', w') := run this c w xs in run this c' w' ys.
Proof.
  revert c w. induction xs as [|x xs IH]; intros c w; cbn; [reflexivity |].
  destruct (step this c w x) as [c' w']. apply IH.
Qed.

(** What [consumeBody] sets up for a stream. *)
Lemma consumeBody_streaming (this this' : holder) (w w' : world) (c0 : consumer) :
  consumeBody this w = (this', w', Streaming c0) ->
  this' = set_DISTURBED this true /\ w' = w
  /\ c0 = {| accum := []; accumBytes := 0; abort := false;
             resTimeout := setTimeout_if (timeout this); promise := None |}
  /\ exists s, body this = VStream s.
Proof.
  unfold consumeBody. destruct (DISTURBED this); [discriminate |]. cbn.
  destruct (body this) as [| |s|b|b|s|o]; cbn; try discriminate.
  intros [= <- <- <-]. eauto.
Qed.

Section Consumer.

Variable this : holder.

(** A chunk that passes the size check is appended. *)
Lemma step_data_fits (c : consumer) (w : world) (x : Buffer) :
  abort c = false ->
  size this = 0 \/ accumBytes c + chunk_length x <= size this ->
  step this c w (EvData (Some x)) = (pushed c [x], w).
Proof.
  intros Ha Hfit. destruct c as [ac ab abt rt pr]. cbn in Ha, Hfit. subst abt.
  unfold step. cbn [abort accumBytes accum resTimeout promise].
  replace (negb (size this =? 0) && (ab + chunk_length x >? size this))
    with false.
  - unfold pushed; cbn [total_length abort accumBytes accum resTimeout promise].
    rewrite Z.add_0_r. reflexivity.
  - symmetry. destruct Hfit as [-> | H]; [reflexivity |].
    apply andb_false_iff. right. rewrite Z.gtb_ltb. apply Z.ltb_ge. lia.
Qed.

(** A chunk that fails the size check is not appended. *)
Lemma step_data_over (c : consumer) (w : world) (x : Buffer) :
  abort c = false ->
  size this <> 0 -> accumBytes c + chunk_length x > size this ->
  step this c w (EvData (Some x)) = (overflowed this c, w).
Proof.
  intros Ha Hs Hover. destruct c as [ac ab abt rt pr]. cbn in Ha, Hover. subst abt.
  unfold step. cbn [abort accumBytes accum resTimeout promise].
  replace (negb (size this =? 0) && (ab + chunk_length x >? size this))
    with true; [reflexivity |].
  symmetry. apply andb_true_iff. split.
  - apply negb_true_iff, Z.eqb_neq, Hs.
  - rewrite Z.gtb_ltb. apply Z.ltb_lt. lia.
Qed.

Lemma run_data_fits (cs : list Buffer) (c : consumer) (w : world) :
  abort c = false ->
  size this = 0 \/ accumBytes c + total_length cs <= size this ->
  run this c w (data cs) = (pushed c cs, w).
Proof.
  revert c. induction cs as [|x cs IH]; intros c Ha Hfit; cbn [data map run].
  - rewrite pushed_nil. reflexivity.
  - pose proof (total_length_nonneg cs) as Hcs.
    pose proof (chunk_length_nonneg x) as Hx.
    cbn [total_length] in Hfit.
    rewrite step_data_fits by (auto; lia).
    fold (data cs). rewrite IH.
    + rewrite pushed_cons. reflexivity.
    + exact Ha.
    + cbn. rewrite Z.add_0_r. destruct Hfit; [left; assumption | right; lia].
Qed.

(** Once [abort] is set, 'data' and 'end' are ignored. *)
Lemma run_aborted (cs : list Buffer) (c : consumer) (w : world) :
  abort c = true ->
  run this c w (data cs ++ [EvEnd]) = (c, w).
Proof.
  intros Ha. induction cs as [|x cs IH]; cbn.
  - rewrite Ha. reflexivity.
  - rewrite Ha. exact IH.
Qed.

Lemma run_data_over (pre post : list Buffer) (x : Buffer) (c : consumer) (w : world) :
  abort c = false ->
  size this <> 0 ->
  accumBytes c + total_length pre <= size this ->
  accumBytes c + total_length pre + chunk_length x > size this ->
  run this c w (data (pre ++ x :: post) ++ [EvEnd])
  = (overflowed this (pushed c pre), w).
Proof.
  intros Ha Hs Hpre Hover.
  unfold data. rewrite map_app, <- app_assoc. cbn [map app].
  rewrite run_app. fold (data pre). rewrite run_data_fits by auto.
  cbn [run]. rewrite step_data_over by (cbn; auto).
  fold (data post). apply run_aborted. reflexivity.
Qed.

(** The first chunk that does not fit. *)
Lemma first_overflow (cap : Z) (cs : list Buffer) (acc : Z) :
  acc <= cap -> acc + total_length cs > cap ->
  exists pre x post,
    cs = pre ++ x :: post
    /\ acc + total_length pre <= cap
    /\ acc + total_length pre + chunk_length x > cap.
Proof.
  revert acc. induction cs as [|y cs IH]; intros acc Hacc Hover; cbn in Hover.
  - lia.
  - destruct (Z_le_gt_dec (acc + chunk_length y) cap) as [Hfit | Hbig].
    + destruct (IH (acc + chunk_length y) Hfit) as (pre & x & post & -> & H1 & H2);
        [lia |].
      exists (y :: pre), x, post. cbn. repeat split; lia.
    + exists [], y, cs. cbn. repeat split; lia.
Qed.

(** A settled promise stays as it is, whatever happens next. *)
Lemma step_settled (c : consumer) (w : world) (ev : event) (r : settled Buffer) :
  promise c = Some r -> promise (step this c w ev).1 = Some r.
Proof.
  intros H. destruct ev as [[x|]| |err|]; cbn.
  - destruct (abort c); cbn; [assumption |].
    destruct (negb (size this =? 0) && (accumBytes c + chunk_length x >? size this));
      cbn; [rewrite H; reflexivity | assumption].
  - assumption.
  - destruct (abort c); cbn; [assumption | rewrite H; reflexivity].
  - rewrite H. reflexivity.
  - destruct (resTimeout c); cbn; try assumption. rewrite H. reflexivity.
Qed.

Lemma run_settled (evs : list event) (c : consumer) (w : world) (r : settled Buffer) :
  promise c = Some r -> promise (run this c w evs).1 = Some r.
Proof.
  revert c w. induction evs as [|ev evs IH]; intros c w H; cbn; [assumption |].
  pose proof (step_settled c w ev r H) as H'.
  destruct (step this c w ev) as [c' w']. apply IH. exact H'.
Qed.

Lemma step_consistent (c : consumer) (w : world) (ev : event) :
  consistent c -> consistent (step this c w ev).1.
Proof.
  unfold consistent. intros Hc.
  destruct ev as [[x|]| |err|]; cbn.
  - destruct (abort c) eqn:Ha; cbn; [auto |].
    destruct (negb (size this =? 0) && (accumBytes c + chunk_length x >? size this));
      cbn; [| congruence].
    intros _. destruct (promise c); discriminate.
  - assumption.
  - destruct (abort c) eqn:Ha; cbn; [auto | congruence].
  - intros Ha. destruct (promise c); discriminate.
  - destruct (resTimeout c); cbn; try assumption.
    intros _. destruct (promise c); discriminate.
Qed.

Lemma run_consistent (evs : list event) (c : consumer) (w : world) :
  consistent c -> consistent (run this c w evs).1.
Proof.
  revert c w. induction evs as [|ev evs IH]; intros c w H; cbn; [assumption |].
  pose proof (step_consistent c w ev H) as H'.
  destruct (step this c w ev) as [c' w']. apply IH. exact H'.
Qed.

End Consumer.

(** The 'end' event on a consumer that has not aborted. *)
Lemma step_end (this : holder) (c : consumer) (w : world) :
  abort c = false ->
  step this c w EvEnd
  = ({| accum := accum c; accumBytes := accumBytes c; abort := false;
        resTimeout := clearTimeout (resTimeout c);
        promise := settle (promise c)
                     (Resolved {| buf_id := next_id w;
                                  buf_bytes := concat (map buf_bytes (accum c)) |}) |},
     (Buffer_concat (accum c) w).2).
Proof. intros Ha. unfold step. rewrite Ha. reflexivity. Qed.

(** Chunks that all fit, followed by 'end', resolve to their concatenation. *)
Lemma run_data_end (this : holder) (cs : list Buffer) (c : consumer) (w : world) :
  abort c = false -> promise c = None ->
  size this = 0 \/ accumBytes c + total_length cs <= size this ->
  promise (run this c w (data cs ++ [EvEnd])).1
  = Some (Resolved {| buf_id := next_id w;
                      buf_bytes := concat (map buf_bytes (accum c ++ cs)) |}).
Proof.
  intros Ha Hp Hfit. rewrite run_app, run_data_fits by assumption.
  cbn [run]. rewrite step_end by exact Ha. cbn. rewrite Hp. reflexivity.
Qed.

(** C2. A stream body read under a cap [size > 0]: the promise is rejected
    with the max-size error exactly if some chunk, added to the chunks
    before it, exceeds the cap; the chunk that fails the check is not
    appended (the consumer holds the chunks before it, which fit); a single
    chunk larger than the cap is rejected; chunks of total length at most
    the cap (so also exactly the cap) resolve to their concatenation.
    With [size = 0] any chunks resolve to their concatenation.  The
    max-size error is a FetchError whose type is [max-size], without a
    code. *)
Theorem size_cap (this this' : holder) (w w' : world) (c0 : consumer)
    (cs : list Buffer) :
  consumeBody this w = (this', w', Streaming c0) ->
  let c := (run this' c0 w' (data cs ++ [EvEnd])).1 in
  (0 < size this ->
     (promise c = Some (Rejected (max_size_error this'))
      <-> exists pre x post,
            cs = pre ++ x :: post
            /\ total_length pre + chunk_length x > size this)
     /\ (promise c = Some (Rejected (max_size_error this')) ->
         exists pre x post,
           cs = pre ++ x :: post
           /\ total_length pre <= size this
           /\ total_length pre + chunk_length x > size this
           /\ accum c = pre /\ accumBytes c = total_length pre)
     /\ (forall x, cs = [x] -> chunk_length x > size this ->
         promise c = Some (Rejected (max_size_error this')))
     /\ (total_length cs <= size this ->
         exists b, promise c = Some (Resolved b)
                   /\ buf_bytes b = concat (map buf_bytes cs)))
  /\ (size this = 0 ->
      exists b, promise c = Some (Resolved b)
                /\ buf_bytes b = concat (map buf_bytes cs))
  /\ error_type (max_size_error this') = Some (str "max-size")
  /\ exists msg,
       max_size_error this'
       = Fetch {| message := msg; type := str "max-size"; code := None |}.
Proof.
  intros Hc. apply consumeBody_streaming in Hc as (-> & -> & -> & _).
  set (c0 := {| accum := []; accumBytes := 0; abort := false;
                resTimeout := setTimeout_if (timeout this); promise := None |}).
  set (this' := set_DISTURBED this true).
  assert (Hsize : size this' = size this) by reflexivity.
  cbv zeta. split; [| split; [| split; [reflexivity | eexists; reflexivity]]].
  - intros Hpos.
    destruct (Z_le_gt_dec (total_length cs) (size this)) as [Hfit | Hover].
    + (* everything fits *)
      pose proof (run_data_end this' cs c0 w eq_refl eq_refl) as Hrun.
      rewrite Hrun by (right; cbn; lia). cbn [accum c0 app].
      assert (Hno : ~ exists pre x post,
                 cs = pre ++ x :: post
                 /\ total_length pre + chunk_length x > size this).
      { intros (pre & x & post & -> & H).
        rewrite total_length_app in Hfit. cbn [total_length] in Hfit.
        pose proof (total_length_nonneg post). lia. }
      repeat split.
      * discriminate.
      * intros H. destruct (Hno H).
      * discriminate.
      * intros x -> Hx. cbn [total_length] in Hfit. lia.
      * intros _. eexists. split; reflexivity.
    + (* some chunk does not fit *)
      destruct (first_overflow (size this) cs 0) as (pre & x & post & -> & H1 & H2);
        [lia | lia |].
      rewrite (run_data_over this' pre post x c0 w) by (cbn; lia).
      cbn [fst overflowed pushed promise accum accumBytes c0 settle app].
      split; [split | split; [| split]].
      * intros _. exists pre, x, post. split; [reflexivity | lia].
      * reflexivity.
      * intros _. exists pre, x, post. repeat split; lia.
      * reflexivity.
      * rewrite total_length_app in Hover |- *. cbn [total_length] in Hover |- *.
        intros Hfit. exfalso. pose proof (total_length_nonneg post). lia.
  - intros Hzero.
    rewrite (run_data_end this' cs c0 w eq_refl eq_refl) by (left; exact Hzero).
    eexists. split; reflexivity.
Qed.

Lemma size_cap_witness :
  consumeBody capped world1 = (set_DISTURBED capped true, world1, Streaming capped_start)
  /\ (let cs := [chunk_of 1 "he"; chunk_of 2 "llo"] in
      let c := (run (set_DISTURBED capped true) capped_start world1
                    (data cs ++ [EvEnd])).1 in
      exists b, promise c = Some (Resolved b)
                /\ buf_bytes b = concat (map buf_bytes cs))
  /\ (let cs := [chunk_of 1 "he"; chunk_of 2 "llo"; chunk_of 3 "!"] in
      let c := (run (set_DISTURBED capped true) capped_start world1
                    (data cs ++ [EvEnd])).1 in
      promise c = Some (Rejected (max_size_error (set_DISTURBED capped true)))
      /\ error_type (max_size_error (set_DISTURBED capped true))
         = Some (str "max-size")).
Proof.
  split; [reflexivity | split].
  - pose proof (size_cap capped (set_DISTURBED capped true) world1 world1
                  capped_start [chunk_of 1 "he"; chunk_of 2 "llo"] eq_refl) as [H _].
    destruct (H ltac:(reflexivity)) as (_ & _ & _ & Hfit).
    apply Hfit. vm_compute. discriminate.
  - pose proof (size_cap capped (set_DISTURBED capped true) world1 world1
                  capped_start [chunk_of 1 "he"; chunk_of 2 "llo"; chunk_of 3 "!"]
                  eq_refl) as (H & _ & Htype & _).
    destruct (H ltac:(reflexivity)) as ((_ & Hover) & _).
    split; [| exact Htype].
    apply Hover.
    exists [chunk_of 1 "he"; chunk_of 2 "llo"], (chunk_of 3 "!"), [].
    split; [reflexivity | vm_compute; reflexivity].
Defined.

Example size_cap_single_chunk :
  promise (run (set_DISTURBED capped true) capped_start world1
               (data [chunk_of 1 "hello!"] ++ [EvEnd])).1
  = Some (Rejected (Fetch {| message := str "content size at undefined over limit: 5";
                             type := str "max-size"; code := None |})).
Proof. reflexivity. Qed.

(** The timer is not left armed by the two paths that disarm it: a clean
    end clears it, and its own callback has run when it fires. *)
Lemma timer_after_end (this : holder) (c : consumer) (w : world) :
  abort c = false -> resTimeout (step this c w EvEnd).1 <> Armed.
Proof.
  intros Ha. rewrite step_end by exact Ha. cbn.
  destruct (resTimeout c); discriminate.
Qed.

Lemma timer_after_timeout (this : holder) (c : consumer) (w : world) :
  resTimeout (step this c w EvTimeout).1 = Armed -> False.
Proof. cbn. destruct (resTimeout c) eqn:E; cbn; congruence. Qed.

(** The other two paths leave an armed timer armed. *)
Lemma timer_after_error (this : holder) (c : consumer) (w : world) (err : system_error) :
  resTimeout (step this c w (EvError err)).1 = resTimeout c.
Proof. reflexivity. Qed.

Lemma timer_after_max_size (this : holder) (c : consumer) (w : world) (x : Buffer) :
  resTimeout (step this c w (EvData (Some x))).1 = resTimeout c.
Proof.
  cbn. destruct (abort c); [reflexivity |].
  destruct (negb (size this =? 0) && (accumBytes c + chunk_length x >? size this));
    reflexivity.
Qed.

(** C6. The body timer is not disarmed on every exit path.  With
    [timeout: 100] and [size: 5], a six-byte chunk rejects the promise with
    max-size and leaves the timer armed; a stream error rejects it with
    system and leaves the timer armed as well.  (A clean end clears the
    timer; when the timer fires it is no longer armed.) *)
Theorem timer_left_armed :
  let '(this, w, r) := consumeBody timed world1 in
  match r with
  | Done _ => False
  | Streaming c0 =>
    let over := (run this c0 w [EvData (Some (chunk_of 1 "hello!"))]).1 in
    let failed := (run this c0 w [EvError reset_error]).1 in
    let ended := (run this c0 w [EvData (Some (chunk_of 1 "hello")); EvEnd]).1 in
    let late := (run this c0 w [EvTimeout]).1 in
    resTimeout c0 = Armed
    /\ (promise over = Some (Rejected (max_size_error this))
        /\ resTimeout over = Armed)
    /\ (promise failed = Some (Rejected (system_error_of this reset_error))
        /\ resTimeout failed = Armed)
    /\ (exists b, promise ended = Some (Resolved b) /\ resTimeout ended = Cleared)
    /\ (promise late = Some (Rejected (body_timeout_error this))
        /\ resTimeout late = Fired)
  end.
Proof.
  cbn. repeat split. eexists. split; reflexivity.
Qed.

(** C7. Only the first terminal event settles the promise.  Take a stream
    consumer whose promise is still pending after some events.  If the next
    event is terminal, it settles the promise: a stream error with the
    system error, the timer with body-timeout, a chunk over the cap with
    max-size, the end of the stream with the concatenation of the chunks
    taken in; and no event after it changes the settled promise.  If the
    next event is not terminal, the promise stays pending. *)
Theorem first_terminal_event_wins (this this' : holder) (w w' : world)
    (c0 : consumer) (pre post : list event) (ev : event) :
  consumeBody this w = (this', w', Streaming c0) ->
  let '(c1, w1) := run this' c0 w' pre in
  promise c1 = None ->
  let '(c2, w2) := step this' c1 w1 ev in
  let c3 := (run this' c2 w2 post).1 in
  if terminal this' c1 ev then
    promise c3 = promise c2
    /\ match ev with
       | EvError err => promise c2 = Some (Rejected (system_error_of this' err))
       | EvTimeout => promise c2 = Some (Rejected (body_timeout_error this'))
       | EvData _ => promise c2 = Some (Rejected (max_size_error this'))
       | EvEnd =>
         exists b, promise c2 = Some (Resolved b)
                   /\ buf_bytes b = concat (map buf_bytes (accum c1))
       end
  else promise c2 = None.
Proof.
  intros Hc. apply consumeBody_streaming in Hc as (-> & -> & -> & _).
  set (this' := set_DISTURBED this true).
  match goal with |- context [run this' ?c w pre] => set (c0 := c) end.
  assert (H0 : consistent c0) by (intros H; discriminate H).
  pose proof (run_consistent this' pre c0 w H0) as Hcons.
  destruct (run this' c0 w pre) as [c1 w1]. cbn [fst] in Hcons.
  intros Hpending.
  assert (Ha : abort c1 = false).
  { destruct (abort c1) eqn:E; [| reflexivity].
    destruct (Hcons E Hpending). }
  assert (Hlater : forall c2 w2 r,
             promise c2 = Some r ->
             promise (run this' c2 w2 post).1 = promise c2).
  { intros c2 w2 r H. rewrite H. apply run_settled. exact H. }
  destruct ev as [[x|]| |err|]; cbn [terminal].
  - (* a chunk *)
    destruct (negb (size this' =? 0) && (accumBytes c1 + chunk_length x >? size this'))
      eqn:Hcheck; cbn [step]; rewrite Ha, Hcheck.
    + cbn [promise]. rewrite Hpending. cbn [settle].
      split; [| reflexivity]. eapply Hlater. reflexivity.
    + exact Hpending.
  - (* a null chunk *)
    cbn. exact Hpending.
  - (* end *)
    rewrite step_end by exact Ha. cbn [promise]. rewrite Hpending. cbn [settle].
    split; [| eexists; split; reflexivity].
    eapply Hlater. reflexivity.
  - (* error *)
    cbn [step promise]. rewrite Hpending. cbn [settle].
    split; [| reflexivity]. eapply Hlater. reflexivity.
  - (* timer *)
    cbn [step]. destruct (resTimeout c1) eqn:Ht; try exact Hpending.
    cbn [promise]. rewrite Hpending. cbn [settle].
    split; [| reflexivity]. eapply Hlater. reflexivity.
Qed.

Lemma first_terminal_event_wins_witness :
  let this' := set_DISTURBED timed true in
  let pre := [EvData (Some (chunk_of 1 "ab"))] in
  let post := [EvTimeout; EvData (Some (chunk_of 2 "hello!")); EvEnd] in
  consumeBody timed world1 = (this', world1, Streaming timed_start)
  /\ promise (run this' timed_start world1 pre).1 = None
  /\ promise (run this' timed_start world1 (pre ++ EvError reset_error :: post)).1
     = Some (Rejected (system_error_of this' reset_error)).
Proof.
  cbv zeta. split; [reflexivity | split; [reflexivity |]].
  pose proof (first_terminal_event_wins timed (set_DISTURBED timed true)
                world1 world1 timed_start
                [EvData (Some (chunk_of 1 "ab"))]
                [EvTimeout; EvData (Some (chunk_of 2 "hello!")); EvEnd]
                (EvError reset_error) eq_refl) as H.
  cbn [run step] in H.
  destruct (H eq_refl) as [Hlater Hfirst].
  exact (eq_trans Hlater Hfirst).
Defined.

(** ** [json()] *)

Lemma json_awaits (this : holder) (w : world) :
  let '(this', w', a) := json this w in
  (this', w', awaited a) = consumeBody this w.
Proof.
  unfold json. destruct (consumeBody this w) as [[h w'] r]. reflexivity.
Qed.

(** C4, as the code has it.  [json()] awaits [consumeBody]; when that
    resolves to a buffer, [json()] resolves to the JSON parse of the UTF-8
    text of its bytes, and when that text is not valid JSON it rejects with
    the error the parser threw, a SyntaxError, which is not a FetchError
    and has no [type].  When [consumeBody] rejects, [json()] rejects with
    the same error. *)
Theorem json_parses_text (this : holder) (w : world) (evs : list event) :
  let '(this', w', a) := json this w in
  (this', w', awaited a) = consumeBody this w
  /\ (forall buf w1,
        promise_after this' (awaited a) w' evs = (Some (Resolved buf), w1) ->
        match parseJson (utf8_decode (buf_bytes buf)) with
        | Return v => outcome this' a w' evs = (Some (Resolved v), w1)
        | Throw e =>
          outcome this' a w' evs = (Some (Rejected e), w1)
          /\ e = SyntaxError (utf8_decode (buf_bytes buf))
          /\ error_type e = None
        end)
  /\ (forall e w1,
        promise_after this' (awaited a) w' evs = (Some (Rejected e), w1) ->
        outcome this' a w' evs = (Some (Rejected e), w1)).
Proof.
  pose proof (json_awaits this w) as Haw. unfold json in *.
  destruct (consumeBody this w) as [[this' w'] r]. cbn [awaited] in *.
  split; [exact Haw | split].
  - intros buf w1 Hp. unfold outcome. cbn [awaited resume]. rewrite Hp.
    unfold Buffer_toString.
    destruct (parseJson (utf8_decode (buf_bytes buf))) as [v|e] eqn:Hparse;
      [reflexivity |].
    split; [reflexivity |].
    unfold parseJson in Hparse.
    destruct (parse_value _ _) as [[v rest]|]; [destruct (skip_ws rest) |];
      inversion Hparse; subst; split; reflexivity.
  - intros e w1 Hp. unfold outcome. cbn [awaited]. rewrite Hp. reflexivity.
Qed.

Lemma json_parses_text_witness :
  let '(this', w', a) :=
    json (Response (VString (str "{" ++ quoted "a" ++ str ":1}")) no_options) world1 in
  outcome this' a w' []
  = (Some (Resolved (JObject [(str "a", JNumber (str "1"))])),
     {| next_id := 2; pipes := ∅; readable := ∅ |}).
Proof.
  pose proof (json_parses_text
                (Response (VString (str "{" ++ quoted "a" ++ str ":1}")) no_options)
                world1 []) as H.
  cbn [json Response Body blank no_options consumeBody DISTURBED body
       set_DISTURBED opt_size opt_timeout] in H |- *.
  destruct H as (_ & H & _).
  exact (H _ _ eq_refl).
Defined.

(** C4 as the specification words it does not hold: on a body that is not
    valid JSON, [json()] rejects with the parser's SyntaxError, not with a
    FetchError of type [invalid-json]. *)
Lemma json_invalid_is_not_fetch_error :
  let '(this', w', a) := json (Response (VString (str "oops")) no_options) world1 in
  parseJson (str "oops") = Throw (SyntaxError (str "oops"))
  /\ (outcome this' a w' []).1 = Some (Rejected (SyntaxError (str "oops")))
  /\ error_type (SyntaxError (str "oops")) <> Some (str "invalid-json")
  /\ forall f, SyntaxError (str "oops") <> Fetch f.
Proof.
  cbn. repeat split; try discriminate.
Qed.

(** ** [clone] *)

Lemma write_lookup_ne (c : Buffer) (rd : gmap nat (list Buffer)) (d k : nat) :
  d <> k -> write c rd d !! k = rd !! k.
Proof. intros H. unfold write. apply lookup_insert_ne. exact H. Qed.

Lemma write_lookup_eq (c : Buffer) (rd : gmap nat (list Buffer)) (d : nat) :
  write c rd d !! d = Some (default [] (rd !! d) ++ [c]).
Proof. unfold write. apply lookup_insert_eq. Qed.

Lemma fold_write_other (c : Buffer) (l : list nat) (rd : gmap nat (list Buffer)) (k : nat) :
  Forall (fun d => d <> k) l ->
  fold_left (write c) l rd !! k = rd !! k.
Proof.
  revert rd. induction l as [|d l IH]; intros rd H; cbn; [reflexivity |].
  inversion H; subst. rewrite IH by assumption. apply write_lookup_ne. assumption.
Qed.

(** With two distinct pass-throughs at the end of the pipe list and nowhere
    else in it, a chunk the source produces reaches both. *)
Lemma emit_tee (src p1 p2 : nat) (old : list nat) (c : Buffer) (w : world) :
  dests w src = old ++ [p1; p2] ->
  Forall (fun d => d <> p1) old -> Forall (fun d => d <> p2) old -> p1 <> p2 ->
  chunks (emit src c w) p1 = chunks w p1 ++ [c]
  /\ chunks (emit src c w) p2 = chunks w p2 ++ [c]
  /\ dests (emit src c w) src = dests w src.
Proof.
  intros Hd H1 H2 Hne. unfold chunks, emit; cbn [readable pipes].
  rewrite Hd, fold_left_app. cbn [fold_left].
  repeat split.
  - rewrite write_lookup_ne by auto. rewrite write_lookup_eq.
    rewrite fold_write_other by assumption. reflexivity.
  - rewrite write_lookup_eq. rewrite write_lookup_ne by auto.
    rewrite fold_write_other by assumption. reflexivity.
  - exact Hd.
Qed.

Lemma emit_all_tee (src p1 p2 : nat) (old : list nat) (cs : list Buffer) (w : world) :
  dests w src = old ++ [p1; p2] ->
  Forall (fun d => d <> p1) old -> Forall (fun d => d <> p2) old -> p1 <> p2 ->
  chunks (emit_all src cs w) p1 = chunks w p1 ++ cs
  /\ chunks (emit_all src cs w) p2 = chunks w p2 ++ cs.
Proof.
  intros Hd H1 H2 Hne. revert w Hd.
  induction cs as [|c cs IH]; intros w Hd; cbn [emit_all fold_left].
  - rewrite !app_nil_r. split; reflexivity.
  - destruct (emit_tee src p1 p2 old c w Hd H1 H2 Hne) as (E1 & E2 & E3).
    fold (emit_all src cs (emit src c w)).
    destruct (IH (emit src c w)) as [I1 I2]; [congruence |].
    rewrite I1, I2, E1, E2, <- !app_assoc. split; reflexivity.
Qed.

Lemma teed_dests (s : Stream) (w : world) :
  (stream_id s < next_id w)%nat ->
  dests (teed s w) (stream_id s)
  = dests w (stream_id s) ++ [next_id w; S (next_id w)].
Proof.
  intros Hs. unfold teed, pipe, dests, PassThrough. cbn.
  rewrite lookup_insert_eq. cbn. rewrite lookup_insert_eq. cbn.
  rewrite !lookup_insert_ne by lia.
  rewrite <- app_assoc. reflexivity.
Qed.

Lemma teed_chunks (s : Stream) (w : world) :
  chunks (teed s w) (next_id w) = []
  /\ chunks (teed s w) (S (next_id w)) = [].
Proof.
  unfold teed, pipe, chunks, PassThrough. cbn. split.
  - rewrite lookup_insert_ne by lia. rewrite lookup_insert_eq. reflexivity.
  - rewrite lookup_insert_eq. reflexivity.
Qed.

(** C5. [clone] throws exactly when the body has been used.  Otherwise, for
    a stream that does not offer [getBoundary], the owner's body becomes a
    new pass-through (the owner's [body] field then holds it, its other
    fields are as before) and the result is a second new pass-through; the two
    are distinct objects, both piped from the original stream after
    whatever was piped from it before, with nothing to read yet, and every
    chunk the original stream then produces becomes readable on both, so
    both yield the same chunks.  For every other body the result is the
    body value itself, and neither the owner nor the world changes. *)
Theorem clone_cases (instance : holder) (w : world) :
  let '(instance', w', r) := clone instance w in
  ((exists e, r = Throw e) <-> bodyUsed instance = true)
  /\ (bodyUsed instance = false ->
      match body instance with
      | VStream s =>
        match getBoundary s with
        | None =>
          let p1 := (PassThrough w).1 in
          let p2 := (PassThrough (PassThrough w).2).1 in
          instance' = set_body instance (VStream p1)
          /\ body instance' = VStream p1
          /\ r = Return (VStream p2)
          /\ stream_id p1 = next_id w /\ stream_id p2 = S (next_id w)
          /\ (known w s ->
              dests w' (stream_id s)
              = dests w (stream_id s) ++ [stream_id p1; stream_id p2]
              /\ chunks w' (stream_id p1) = []
              /\ chunks w' (stream_id p2) = []
              /\ forall cs,
                   chunks (emit_all (stream_id s) cs w') (stream_id p1) = cs
                   /\ chunks (emit_all (stream_id s) cs w') (stream_id p2) = cs)
        | Some _ => r = Return (body instance) /\ instance' = instance /\ w' = w
        end
      | v => r = Return v /\ instance' = instance /\ w' = w
      end).
Proof.
  unfold clone. destruct (bodyUsed instance) eqn:Hused;
    [cbn; split; [split; eauto | discriminate] |].
  destruct (body instance) as [| |x|b|b|s|o] eqn:Hbody;
    try (cbn; split;
         [split; [intros [e H]; discriminate H | discriminate]
         | intros _; repeat split; reflexivity]).
  destruct (getBoundary s) eqn:Hb;
    [cbn; split;
         [split; [intros [e H]; discriminate H | discriminate]
         | intros _; repeat split; reflexivity] |].
  destruct (PassThrough w) as [p1 w1] eqn:E1.
  destruct (PassThrough w1) as [p2 w2] eqn:E2.
  cbn [fst snd]. rewrite E2. cbn [fst snd].
  assert (Ht : pipe s p2 (pipe s p1 w2) = teed s w).
  { unfold teed. rewrite E1. cbn [fst snd]. rewrite E2. reflexivity. }
  assert (P1 : stream_id p1 = next_id w).
  { unfold PassThrough in E1. injection E1 as <- _. reflexivity. }
  assert (P2 : stream_id p2 = S (next_id w)).
  { unfold PassThrough in E1, E2. injection E1 as _ <-. injection E2 as <- _.
    reflexivity. }
  rewrite Ht, P1, P2.
  split; [split; [intros [e H]; discriminate H | discriminate] |].
  intros _.
  split; [reflexivity | split; [reflexivity |]].
  split; [reflexivity | split; [reflexivity | split; [reflexivity |]]].
  intros [Hs Hold].
  pose proof (teed_dests s w Hs) as Hd.
  destruct (teed_chunks s w) as [C1 C2].
  split; [exact Hd | split; [exact C1 | split; [exact C2 |]]].
  intros cs.
  destruct (emit_all_tee (stream_id s) (next_id w) (S (next_id w))
              (dests w (stream_id s)) cs (teed s w) Hd) as [F1 F2].
  - eapply Forall_impl; [exact Hold |]. cbn. intros; lia.
  - eapply Forall_impl; [exact Hold |]. cbn. intros; lia.
  - lia.
  - rewrite F1, F2, C1, C2. split; reflexivity.
Qed.

Lemma clone_cases_witness :
  let res := Response (VStream (plain_stream 0)) no_options in
  let '(res', w', r) := clone res world1 in
  bodyUsed res = false
  /\ known world1 (plain_stream 0)
  /\ res' = set_body res (VStream (plain_stream 1))
  /\ body res' = VStream (plain_stream 1)
  /\ r = Return (VStream (plain_stream 2))
  /\ dests w' 0 = [1; 2]%nat
  /\ chunks (emit_all 0 [chunk_of 3 "wor"; chunk_of 4 "ld"] w') 1
     = [chunk_of 3 "wor"; chunk_of 4 "ld"]
  /\ chunks (emit_all 0 [chunk_of 3 "wor"; chunk_of 4 "ld"] w') 2
     = [chunk_of 3 "wor"; chunk_of 4 "ld"].
Proof.
  assert (Hknown : known world1 (plain_stream 0)).
  { split; [cbn; lia | constructor]. }
  pose proof (clone_cases (Response (VStream (plain_stream 0)) no_options) world1) as H.
  cbv zeta. destruct (clone _ world1) as [[res' w'] r].
  destruct H as [_ H]. specialize (H eq_refl).
  cbn [body Response Body blank no_options getBoundary plain_stream] in H.
  destruct H as (Hres & Hbody & Hr & _ & _ & H).
  destruct (H Hknown) as (Hd & _ & _ & Hcs).
  specialize (Hcs [chunk_of 3 "wor"; chunk_of 4 "ld"]).
  split; [reflexivity | split; [exact Hknown |]].
  split; [exact Hres | split; [exact Hbody |]].
  split; [exact Hr | split; [exact Hd |]].
  exact Hcs.
Defined.

Example clone_used_throws :
  (clone (set_DISTURBED (Response (VString (str "a=1")) no_options) true) world1).2
  = Throw (Error (str "cannot clone body after it is used")).
Proof. reflexivity. Qed.

Example clone_form_by_reference :
  let form := VStream (form_stream 0 (str "--x") 10 true) in
  clone (Response form no_options) world1
  = (Response form no_options, world1, Return form).
Proof. reflexivity. Qed.

Lemma extractContentType_cases_witness :
  let form := form_stream 0 (str "--x") 10 true in
  getBoundary form = Some (str "--x")
  /\ extractContentType (Response (VStream form) no_options)
     = Return (Some (str "multipart/form-data;boundary=" ++ str "--x")).
Proof.
  split; [reflexivity |].
  pose proof (extractContentType_cases
                (Response (VStream (form_stream 0 (str "--x") 10 true)) no_options)) as H.
  cbn [body Response Body blank] in H. destruct H as [H _].
  apply H. reflexivity.
Defined.

Lemma getTotalBytes_cases_witness :
  let form := form_stream 0 (str "--x") 10 true in
  reports_known_length form
  /\ getTotalBytes (Response (VStream form) no_options) = Some 10.
Proof.
  assert (Hk : reports_known_length (form_stream 0 (str "--x") 10 true))
    by (right; reflexivity).
  split; [exact Hk |].
  pose proof (getTotalBytes_cases
                (Response (VStream (form_stream 0 (str "--x") 10 true)) no_options)) as H.
  cbn [body Response Body blank getLengthSync form_stream] in H.
  destruct H as [[H _] _]. apply H. exact Hk.
Defined.

(** * Further properties of the code *)

(** ** The stream consumer, for any sequence of events *)

Lemma concat_length_total (cs : list Buffer) :
  Z.of_nat (length (concat (map buf_bytes cs))) = total_length cs.
Proof.
  induction cs as [|c cs IH]; cbn [map concat total_length]; [reflexivity |].
  rewrite length_app, Nat2Z.inj_add, IH. reflexivity.
Qed.

Lemma step_within_cap (this : holder) (c : consumer) (w : world) (ev : event) :
  within_cap this c -> within_cap this (step this c w ev).1.
Proof.
  intros (Hsum & Hcap & Hres). destruct ev as [[x|]| |err|]; cbn [step].
  - destruct (abort c); [repeat split; assumption |].
    destruct (negb (size this =? 0) && (accumBytes c + chunk_length x >? size this))
      eqn:Hcheck; cbn [fst].
    + repeat split; cbn [accumBytes accum promise]; try assumption.
      intros Hpos b Hb. destruct (promise c) eqn:Hp; [| discriminate].
      apply (Hres Hpos b). exact Hb.
    + unfold within_cap. cbn [accumBytes accum promise].
      rewrite total_length_app. cbn [total_length].
      apply andb_false_iff in Hcheck.
      repeat split; [lia | | assumption].
      intros Hpos. destruct Hcheck as [Hz | Hgt].
      * apply negb_false_iff, Z.eqb_eq in Hz. lia.
      * rewrite Z.gtb_ltb in Hgt. apply Z.ltb_ge in Hgt. lia.
  - repeat split; assumption.
  - destruct (abort c); [repeat split; assumption |].
    cbn [fst]. unfold within_cap. cbn [accumBytes accum promise].
    repeat split; try assumption.
    intros Hpos b Hb. destruct (promise c) eqn:Hp.
    + apply (Hres Hpos b). exact Hb.
    + cbn in Hb. injection Hb as <-. unfold chunk_length. cbn [buf_bytes].
      rewrite concat_length_total. specialize (Hcap Hpos). lia.
  - unfold within_cap. cbn [fst accumBytes accum promise].
    repeat split; try assumption.
    intros Hpos b Hb. destruct (promise c) eqn:Hp; [| discriminate].
    apply (Hres Hpos b). exact Hb.
  - destruct (resTimeout c); try (repeat split; assumption).
    unfold within_cap. cbn [fst accumBytes accum promise].
    repeat split; try assumption.
    intros Hpos b Hb. destruct (promise c) eqn:Hp; [| discriminate].
    apply (Hres Hpos b). exact Hb.
Qed.

Lemma run_within_cap (this : holder) (evs : list event) (c : consumer) (w : world) :
  within_cap this c -> within_cap this (run this c w evs).1.
Proof.
  revert c w. induction evs as [|ev evs IH]; intros c w H; cbn [run]; [exact H |].
  pose proof (step_within_cap this c w ev H) as H'.
  destruct (step this c w ev) as [c' w']. apply IH. exact H'.
Qed.

(** X1. Whatever events a stream consumer is given, in whatever order, the
    byte count it keeps equals the total length of the chunks it holds, and
    under a cap [size > 0] it never holds more than [size] bytes. *)
Theorem accumulation_stays_within_cap (this this' : holder) (w w' : world)
    (c0 : consumer) (evs : list event) :
  consumeBody this w = (this', w', Streaming c0) ->
  let c := (run this' c0 w' evs).1 in
  accumBytes c = total_length (accum c)
  /\ (0 < size this -> total_length (accum c) <= size this).
Proof.
  intros Hc. apply consumeBody_streaming in Hc as (-> & -> & -> & _).
  cbv zeta.
  match goal with |- context [run ?h ?c w evs] =>
    destruct (run_within_cap h evs c w) as (Hsum & Hcap & _) end.
  - repeat split; cbn; try lia. intros _ b Hb. discriminate Hb.
  - split; [exact Hsum |]. intros Hpos. rewrite <- Hsum. apply Hcap. exact Hpos.
Qed.

Lemma accumulation_stays_within_cap_witness :
  let c := (run (set_DISTURBED capped true) capped_start world1
              [EvData (Some (chunk_of 1 "he")); EvError reset_error;
               EvData (Some (chunk_of 2 "llo")); EvData (Some (chunk_of 3 "!"));
               EvEnd; EvData (Some (chunk_of 4 "x"))]).1 in
  accumBytes c = total_length (accum c)
  /\ (0 < size capped -> total_length (accum c) <= size capped).
Proof.
  apply (accumulation_stays_within_cap capped (set_DISTURBED capped true)
           world1 world1 capped_start). reflexivity.
Defined.

(** X2. Under a cap [size > 0], a stream body that resolves never resolves
    to more than [size] bytes, whatever the events. *)
Theorem resolved_within_cap (this this' : holder) (w w' : world)
    (c0 : consumer) (evs : list event) (b : Buffer) :
  consumeBody this w = (this', w', Streaming c0) ->
  0 < size this ->
  promise (run this' c0 w' evs).1 = Some (Resolved b) ->
  Z.of_nat (length (buf_bytes b)) <= size this.
Proof.
  intros Hc Hpos Hb. apply consumeBody_streaming in Hc as (-> & -> & -> & _).
  match type of Hb with context [run ?h ?c w evs] =>
    destruct (run_within_cap h evs c w) as (_ & _ & Hres) end.
  - repeat split; cbn; try lia. intros _ b' Hb'. discriminate Hb'.
  - exact (Hres Hpos b Hb).
Qed.

Lemma resolved_within_cap_witness :
  Z.of_nat (length (buf_bytes {| buf_id := 1; buf_bytes := utf8_encode (str "hello") |}))
  <= size capped.
Proof.
  apply (resolved_within_cap capped (set_DISTURBED capped true) world1 world1
           capped_start
           [EvData (Some (chunk_of 1 "he")); EvData (Some (chunk_of 2 "llo")); EvEnd]).
  - reflexivity.
  - reflexivity.
  - reflexivity.
Defined.

Lemma delivered_app (xs ys : list event) :
  delivered (xs ++ ys) = delivered xs ++ delivered ys.
Proof.
  induction xs as [|[[x|]| |err|] xs IH]; cbn [app delivered];
    rewrite ?IH; reflexivity.
Qed.

Lemma not_in_snoc (ev : event) (seen : list event) :
  ~ In EvEnd seen -> ev <> EvEnd -> ~ In EvEnd (seen ++ [ev]).
Proof.
  intros Hs Hev Hin. apply in_app_or in Hin as [Hin | [Hin | []]]; auto.
Qed.

Lemma resolved_earlier (seen : list event) (ev : event) (b : Buffer) :
  (exists pre post,
     seen = pre ++ EvEnd :: post /\ ~ In EvEnd pre
     /\ buf_bytes b = concat (map buf_bytes (delivered pre))) ->
  exists pre post,
    seen ++ [ev] = pre ++ EvEnd :: post /\ ~ In EvEnd pre
    /\ buf_bytes b = concat (map buf_bytes (delivered pre)).
Proof.
  intros (pre & post & -> & Hpre & Hb). exists pre, (post ++ [ev]).
  rewrite <- app_assoc. cbn. auto.
Qed.

Lemma step_tracks (this : holder) (seen : list event) (c : consumer) (w : world)
    (ev : event) :
  tracks seen c -> tracks (seen ++ [ev]) (step this c w ev).1.
Proof.
  intros (Hcons & Hpend & Hres).
  split; [apply step_consistent; exact Hcons |].
  assert (Hab : promise c = None -> abort c = false).
  { intros Hp. destruct (abort c) eqn:E; [destruct (Hcons E Hp) | reflexivity]. }
  destruct ev as [[x|]| |err|]; cbn [step].
  - (* a chunk *)
    destruct (abort c) eqn:Ha; cbn [fst].
    { split.
      - intros Hp. destruct (Hcons Ha Hp).
      - intros b Hb. apply resolved_earlier, Hres, Hb. }
    destruct (negb (size this =? 0) && (accumBytes c + chunk_length x >? size this));
      cbn [fst promise accum].
    + split.
      * destruct (promise c); discriminate.
      * intros b Hb. destruct (promise c) eqn:Hp; [| discriminate].
        apply resolved_earlier, Hres, Hb.
    + split.
      * intros Hp. destruct (Hpend Hp) as [Hacc Hno].
        rewrite delivered_app, Hacc. split; [reflexivity |].
        apply not_in_snoc; [exact Hno | discriminate].
      * intros b Hb. apply resolved_earlier, Hres, Hb.
  - (* a null chunk *)
    cbn [fst]. split.
    + intros Hp. destruct (Hpend Hp) as [Hacc Hno].
      rewrite delivered_app, app_nil_r. split; [exact Hacc |].
      apply not_in_snoc; [exact Hno | discriminate].
    + intros b Hb. apply resolved_earlier, Hres, Hb.
  - (* end *)
    destruct (abort c) eqn:Ha; cbn [fst].
    { split.
      - intros Hp. destruct (Hcons Ha Hp).
      - intros b Hb. apply resolved_earlier, Hres, Hb. }
    cbn [promise]. split.
    + destruct (promise c); discriminate.
    + intros b Hb. destruct (promise c) eqn:Hp.
      * apply resolved_earlier, Hres, Hb.
      * cbn in Hb. injection Hb as <-. destruct (Hpend eq_refl) as [Hacc Hno].
        exists seen, []. cbn [buf_bytes]. rewrite Hacc. auto.
  - (* error *)
    cbn [fst promise]. split.
    + destruct (promise c); discriminate.
    + intros b Hb. destruct (promise c) eqn:Hp; [| discriminate].
      apply resolved_earlier, Hres, Hb.
  - (* timer *)
    destruct (resTimeout c); cbn [fst promise];
      try (split;
           [ intros Hp; destruct (Hpend Hp) as [Hacc Hno];
             rewrite delivered_app, app_nil_r; split; [exact Hacc |];
             apply not_in_snoc; [exact Hno | discriminate]
           | intros b Hb; apply resolved_earlier, Hres, Hb ]).
    split.
    + destruct (promise c); discriminate.
    + intros b Hb. destruct (promise c) eqn:Hp; [| discriminate].
      apply resolved_earlier, Hres, Hb.
Qed.

Lemma run_tracks (this : holder) (evs seen : list event) (c : consumer) (w : world) :
  tracks seen c -> tracks (seen ++ evs) (run this c w evs).1.
Proof.
  revert seen c w. induction evs as [|ev evs IH]; intros seen c w H; cbn [run].
  - rewrite app_nil_r. exact H.
  - pose proof (step_tracks this seen c w ev H) as H'.
    destruct (step this c w ev) as [c' w']. cbn [fst] in H'.
    replace (seen ++ ev :: evs) with ((seen ++ [ev]) ++ evs)
      by (rewrite <- app_assoc; reflexivity).
    apply IH. exact H'.
Qed.

(** X3. When a stream body resolves, the stream has ended, and the buffer
    holds, in order, the bytes of all the non-null chunks delivered before
    the first 'end' event: nothing is dropped, repeated or reordered, and
    nothing delivered after the end is included. *)
Theorem resolved_is_whole_body (this this' : holder) (w w' : world)
    (c0 : consumer) (evs : list event) (b : Buffer) :
  consumeBody this w = (this', w', Streaming c0) ->
  promise (run this' c0 w' evs).1 = Some (Resolved b) ->
  exists pre post,
    evs = pre ++ EvEnd :: post
    /\ ~ In EvEnd pre
    /\ buf_bytes b = concat (map buf_bytes (delivered pre)).
Proof.
  intros Hc Hb. apply consumeBody_streaming in Hc as (-> & -> & -> & _).
  match type of Hb with context [run ?h ?c w evs] =>
    destruct (run_tracks h evs [] c w) as (_ & _ & Hres) end.
  - split; [intros H; discriminate H |]. split.
    + intros _. split; [reflexivity | intros []].
    + intros b' Hb'. discriminate Hb'.
  - exact (Hres b Hb).
Qed.

Lemma resolved_is_whole_body_witness :
  exists pre post,
    [EvData (Some (chunk_of 1 "he")); EvData None; EvData (Some (chunk_of 2 "llo"));
     EvEnd; EvData (Some (chunk_of 3 "!")); EvEnd]
    = pre ++ EvEnd :: post
    /\ ~ In EvEnd pre
    /\ utf8_encode (str "hello") = concat (map buf_bytes (delivered pre)).
Proof.
  apply (resolved_is_whole_body capped (set_DISTURBED capped true) world1 world1
           capped_start _ {| buf_id := 1; buf_bytes := utf8_encode (str "hello") |}).
  - reflexivity.
  - reflexivity.
Defined.

Lemma explained_later (this : holder) (seen : list event) (ev : event) (e : jserror) :
  explained this seen e -> explained this (seen ++ [ev]) e.
Proof.
  intros [(err & Hin & He) | [(He & Ht & Hin) | (He & Hs & x & Hin)]].
  - left. exists err. split; [apply in_or_app; left; exact Hin | exact He].
  - right; left. repeat split; try assumption. apply in_or_app; left; exact Hin.
  - right; right. repeat split; try assumption.
    exists x. apply in_or_app; left; exact Hin.
Qed.

Lemma step_accounted (this : holder) (seen : list event) (c : consumer) (w : world)
    (ev : event) :
  accounted this seen c -> accounted this (seen ++ [ev]) (step this c w ev).1.
Proof.
  intros [Htimer Hrej].
  assert (Hold : forall e, promise c = Some (Rejected e) ->
                           explained this (seen ++ [ev]) e).
  { intros e He. apply explained_later, Hrej, He. }
  assert (Hsettle : forall r e,
             settle (promise c) r = Some (Rejected e) ->
             promise c = Some (Rejected e) \/ (promise c = None /\ r = Rejected e)).
  { intros r e H. destruct (promise c); cbn in H; [left; exact H | right].
    injection H as ->. auto. }
  destruct ev as [[x|]| |err|]; cbn [step].
  - destruct (abort c); [split; assumption |].
    destruct (negb (size this =? 0) && (accumBytes c + chunk_length x >? size this))
      eqn:Hcheck; cbn [fst]; (split; [exact Htimer |]); cbn [promise]; [| exact Hold].
    intros e He. apply Hsettle in He as [He | [_ [= <-]]]; [apply Hold, He |].
    right; right. apply andb_true_iff in Hcheck as [Hz _].
    apply negb_true_iff, Z.eqb_neq in Hz.
    repeat split; [exact Hz |]. exists x. apply in_or_app; right; left; reflexivity.
  - split; assumption.
  - destruct (abort c); [split; assumption |].
    cbn [fst]. split.
    + cbn [resTimeout]. destruct (resTimeout c); cbn; discriminate.
    + cbn [promise]. intros e He.
      apply Hsettle in He as [He | [_ Hr]]; [apply Hold, He | discriminate Hr].
  - cbn [fst]. split; [exact Htimer |]. cbn [promise]. intros e He.
    apply Hsettle in He as [He | [_ [= <-]]]; [apply Hold, He |].
    left. exists err. split; [apply in_or_app; right; left |]; reflexivity.
  - destruct (resTimeout c) eqn:Ht; cbn [fst];
      try (split; [rewrite Ht; discriminate | exact Hold]).
    split; [cbn [resTimeout]; discriminate |]. cbn [promise]. intros e He.
    apply Hsettle in He as [He | [_ [= <-]]]; [apply Hold, He |].
    right; left. repeat split; [apply Htimer; reflexivity |].
    apply in_or_app; right; left; reflexivity.
Qed.

Lemma run_accounted (this : holder) (evs seen : list event) (c : consumer) (w : world) :
  accounted this seen c -> accounted this (seen ++ evs) (run this c w evs).1.
Proof.
  revert seen c w. induction evs as [|ev evs IH]; intros seen c w H; cbn [run].
  - rewrite app_nil_r. exact H.
  - pose proof (step_accounted this seen c w ev H) as H'.
    destruct (step this c w ev) as [c' w']. cbn [fst] in H'.
    replace (seen ++ ev :: evs) with ((seen ++ [ev]) ++ evs)
      by (rewrite <- app_assoc; reflexivity).
    apply IH. exact H'.
Qed.

(** X4. A stream body is only ever rejected with one of three FetchErrors:
    [system], wrapping an error the stream emitted and carrying its code;
    [body-timeout], and then only if [timeout] is not 0 and the timer
    fired; or [max-size], and then only if [size] is not 0 and a chunk was
    delivered.  The last two carry no code. *)
Theorem rejection_kinds (this this' : holder) (w w' : world)
    (c0 : consumer) (evs : list event) (e : jserror) :
  consumeBody this w = (this', w', Streaming c0) ->
  promise (run this' c0 w' evs).1 = Some (Rejected e) ->
  (exists err msg,
     In (EvError err) evs
     /\ e = Fetch {| message := msg; type := str "system"; code := sys_code err |})
  \/ (exists msg,
        e = Fetch {| message := msg; type := str "body-timeout"; code := None |}
        /\ timeout this <> 0 /\ In EvTimeout evs)
  \/ (exists msg,
        e = Fetch {| message := msg; type := str "max-size"; code := None |}
        /\ size this <> 0 /\ exists x, In (EvData (Some x)) evs).
Proof.
  intros Hc He. apply consumeBody_streaming in Hc as (-> & -> & -> & _).
  match type of He with context [run ?h ?c w evs] =>
    destruct (run_accounted h evs [] c w) as [_ Hrej] end.
  - split.
    + cbn. unfold setTimeout_if. destruct (Z.eqb_spec (timeout this) 0); congruence.
    + intros e' He'. discriminate He'.
  - destruct (Hrej e He) as [(err & Hin & ->) | [(-> & Ht & Hin) | (-> & Hs & Hx)]].
    + left. eexists err, _. split; [exact Hin | reflexivity].
    + right; left. eexists. split; [reflexivity | split; assumption].
    + right; right. eexists. split; [reflexivity | split; assumption].
Qed.

Lemma rejection_kinds_witness :
  (exists err msg,
     In (EvError err) [EvData (Some (chunk_of 1 "ab")); EvError reset_error; EvTimeout]
     /\ system_error_of (set_DISTURBED timed true) reset_error
        = Fetch {| message := msg; type := str "system"; code := sys_code err |})
  \/ (exists msg,
        system_error_of (set_DISTURBED timed true) reset_error
        = Fetch {| message := msg; type := str "body-timeout"; code := None |}
        /\ timeout timed <> 0
        /\ In EvTimeout [EvData (Some (chunk_of 1 "ab")); EvError reset_error; EvTimeout])
  \/ (exists msg,
        system_error_of (set_DISTURBED timed true) reset_error
        = Fetch {| message := msg; type := str "max-size"; code := None |}
        /\ size timed <> 0
        /\ exists x, In (EvData (Some x))
                       [EvData (Some (chunk_of 1 "ab")); EvError reset_error; EvTimeout]).
Proof.
  apply (rejection_kinds timed (set_DISTURBED timed true) world1 world1 timed_start).
  - reflexivity.
  - reflexivity.
Defined.

(** X5. Once a consumer has aborted (the timer fired or a chunk went over
    the cap), no event makes it buffer anything more or allocate anything:
    its chunks and byte count stay as they are, it stays aborted, and the
    world is unchanged. *)
Theorem nothing_buffered_after_abort (this : holder) (c : consumer) (w : world)
    (evs : list event) :
  abort c = true ->
  let '(c', w') := run this c w evs in
  accum c' = accum c /\ accumBytes c' = accumBytes c /\ abort c' = true /\ w' = w.
Proof.
  revert c. induction evs as [|ev evs IH]; intros c Ha; cbn [run]; [auto |].
  assert (Hstep : exists c1, step this c w ev = (c1, w)
                             /\ accum c1 = accum c /\ accumBytes c1 = accumBytes c
                             /\ abort c1 = true).
  { destruct ev as [[x|]| |err|]; cbn [step]; rewrite ?Ha;
      try destruct (resTimeout c); eauto;
      eexists; (split; [reflexivity |]); cbn; auto. }
  destruct Hstep as (c1 & -> & H1 & H2 & H3).
  specialize (IH c1 H3). destruct (run this c1 w evs) as [c' w'].
  destruct IH as (I1 & I2 & I3 & I4). repeat split; congruence.
Qed.

Lemma nothing_buffered_after_abort_witness :
  let c := (run (set_DISTURBED timed true) timed_start world1
                [EvData (Some (chunk_of 1 "ab")); EvTimeout]).1 in
  abort c = true
  /\ let '(c', w') := run (set_DISTURBED timed true) c world1
                          [EvData (Some (chunk_of 2 "cd")); EvEnd;
                           EvError reset_error] in
     accum c' = accum c /\ accumBytes c' = accumBytes c /\ abort c' = true
     /\ w' = world1.
Proof.
  cbv zeta. split; [reflexivity |].
  apply (nothing_buffered_after_abort (set_DISTURBED timed true)). reflexivity.
Defined.

(** ** The methods after the await *)

(** X6. [json()] is [text()] followed by the JSON parse: on the same holder
    and the same events both leave the holder and the world in the same
    state, [json()] is pending or rejected exactly as [text()] is, and when
    [text()] resolves to a string, [json()] settles with the parse of that
    string, or with the parser's error. *)
Theorem json_is_parse_of_text (this : holder) (w : world) (evs : list event) :
  let '(h1, w1, a1) := text this w in
  let '(h2, w2, a2) := json this w in
  h1 = h2 /\ w1 = w2
  /\ (outcome h2 a2 w2 evs).1
     = match (outcome h1 a1 w1 evs).1 with
       | None => None
       | Some (Rejected e) => Some (Rejected e)
       | Some (Resolved s) =>
         Some (match parseJson s with
               | Return v => Resolved v
               | Throw e => Rejected e
               end)
       end.
Proof.
  unfold text, json. destruct (consumeBody this w) as [[h w'] r].
  split; [reflexivity | split; [reflexivity |]].
  unfold outcome. cbn [awaited resume].
  destruct (promise_after h r w' evs) as [[[b|e]|] w1]; cbn [fst]; try reflexivity.
  destruct (parseJson (Buffer_toString b)); reflexivity.
Qed.

(** X7. [buffer()], [text()], [arrayBuffer()] and [blob()] add no failure of
    their own: each is pending, resolved or rejected (with the same error)
    exactly as the promise of [consumeBody] is.  [json()] agrees with it
    while it is pending or rejected. *)
Theorem methods_add_no_failure (this : holder) (w : world) (evs : list event) :
  let '(h, w', r) := consumeBody this w in
  let p := status (promise_after h r w' evs).1 in
  status (let '(h, w', a) := buffer this w in (outcome h a w' evs).1) = p
  /\ status (let '(h, w', a) := text this w in (outcome h a w' evs).1) = p
  /\ status (let '(h, w', a) := arrayBuffer this w in (outcome h a w' evs).1) = p
  /\ status (let '(h, w', a) := blob this w in (outcome h a w' evs).1) = p
  /\ (p <> Some None ->
      status (let '(h, w', a) := json this w in (outcome h a w' evs).1) = p).
Proof.
  unfold buffer, text, arrayBuffer, blob, json.
  destruct (consumeBody this w) as [[h w'] r]. cbv zeta.
  unfold outcome. cbn [awaited resume].
  destruct (promise_after h r w' evs) as [[[b|e]|] w1]; cbn [fst status];
    repeat split; try reflexivity; intros H; congruence.
Qed.

Lemma lower_unit_not_capital (u : Z) : ~ is_capital (lower_unit u).
Proof.
  unfold is_capital, lower_unit.
  destruct ((0x41 <=? u) && (u <=? 0x5A)) eqn:H1.
  - apply andb_true_iff in H1 as [A B]. apply Z.leb_le in A, B. lia.
  - destruct ((0xC0 <=? u) && (u <=? 0xDE) && negb (u =? 0xD7)) eqn:H2.
    + apply andb_true_iff in H2 as [H2 _]. apply andb_true_iff in H2 as [A B].
      apply Z.leb_le in A, B. lia.
    + apply andb_false_iff in H1 as [A | B].
      * apply Z.leb_gt in A. lia.
      * apply Z.leb_gt in B. lia.
Qed.

Lemma toLowerCase_no_capital (s : jsstring) :
  Forall (fun u => ~ is_capital u) (toLowerCase s).
Proof.
  induction s as [|u s IH]; cbn [toLowerCase map]; constructor;
    [apply lower_unit_not_capital | exact IH].
Qed.

(** X8. When [consumeBody] resolves to a buffer, [blob()] resolves to a Blob
    around that very buffer object (no copy), whose size is the buffer's
    length and whose type is the content type in lower case (empty when
    there is none), so it contains no ASCII capital.  For an unused holder
    with a buffer body, the buffer behind the Blob is the body itself. *)
Theorem blob_wraps_the_buffer (this : holder) (w : world) (evs : list event)
    (buf : Buffer) (w1 : world) :
  let '(h, w', a) := blob this w in
  promise_after h (awaited a) w' evs = (Some (Resolved buf), w1) ->
  exists bl,
    (outcome h a w' evs).1 = Some (Resolved bl)
    /\ blob_BUFFER bl = buf
    /\ blob_size bl = Z.of_nat (length (buf_bytes buf))
    /\ blob_type bl = toLowerCase (default [] (content_type this))
    /\ Forall (fun u => ~ is_capital u) (blob_type bl)
    /\ (forall b, body this = VBuffer b -> bodyUsed this = false -> buf = b).
Proof.
  unfold blob. destruct (consumeBody this w) as [[h w'] r] eqn:Hc.
  cbn [awaited]. intros Hp. unfold outcome. cbn [awaited resume]. rewrite Hp.
  eexists. split; [reflexivity |]. cbn [fst blob_BUFFER blob_size blob_type Blob_around].
  split; [reflexivity | split; [reflexivity | split; [| split]]].
  - destruct (content_type this); reflexivity.
  - apply toLowerCase_no_capital.
  - intros b Hb Hused. unfold consumeBody, bodyUsed in *. rewrite Hused in Hc.
    cbn in Hc. rewrite Hb in Hc. injection Hc as <- <- <-.
    cbn in Hp. congruence.
Qed.

Lemma blob_wraps_the_buffer_witness :
  let b := {| buf_id := 0; buf_bytes := [1; 2; 3] |} in
  let res := Body (blank None (Some (str "Text/PLAIN"))) (VBuffer b) no_options in
  exists bl,
    (let '(h, w', a) := blob res world1 in (outcome h a w' []).1) = Some (Resolved bl)
    /\ blob_BUFFER bl = b
    /\ blob_size bl = 3
    /\ blob_type bl = str "text/plain".
Proof.
  cbv zeta.
  destruct (blob_wraps_the_buffer
              (Body (blank None (Some (str "Text/PLAIN")))
                    (VBuffer {| buf_id := 0; buf_bytes := [1; 2; 3] |}) no_options)
              world1 [] {| buf_id := 0; buf_bytes := [1; 2; 3] |} world1 eq_refl)
    as (bl & H1 & H2 & H3 & H4 & _).
  exists bl. repeat split; assumption.
Defined.

(** ** Writing a body out *)

Lemma wire_bytes_write (c : written) (dest : writable) :
  wr_ended dest = false ->
  wire_bytes (dest_end (dest_write c dest)) = wire_bytes dest ++ wire c.
Proof.
  intros H. unfold wire_bytes, dest_end, dest_write. rewrite H. cbn [wr_log].
  rewrite map_app, concat_app. cbn. rewrite app_nil_r. reflexivity.
Qed.

(** X9. For an unused holder whose body is null, a string, a buffer or an
    open Blob, three things agree: the bytes [consumeBody] resolves to, the
    bytes [writeToStream] adds to a destination that has not ended (which it
    then ends, leaving the world as it is), and, as their count, the
    number [getTotalBytes] returns. *)
Theorem content_length_matches (this : holder) (w : world) (dest : writable) :
  bodyUsed this = false ->
  replayable (body this) ->
  wr_ended dest = false ->
  exists buf,
    (consumeBody this w).2 = Done (Resolved buf)
    /\ getTotalBytes this = Some (Z.of_nat (length (buf_bytes buf)))
    /\ let '(dest', w', r) := writeToStream dest this w in
       r = Return tt /\ w' = w
       /\ wr_ended dest' = true /\ wr_id dest' = wr_id dest
       /\ wire_bytes dest' = wire_bytes dest ++ buf_bytes buf.
Proof.
  unfold bodyUsed, consumeBody, getTotalBytes, writeToStream. intros -> Hrep Hopen.
  cbn [body set_DISTURBED].
  destruct (body this) as [| |s|b|b|s|o]; cbn in Hrep; try contradiction;
    cbn [snd]; eexists; (split; [reflexivity |]).
  - split; [reflexivity |]. repeat split.
    unfold wire_bytes. cbn. rewrite app_nil_r. reflexivity.
  - split; [reflexivity |]. repeat split.
    + unfold dest_write. rewrite Hopen. reflexivity.
    + rewrite wire_bytes_write by exact Hopen. reflexivity.
  - split; [rewrite Hrep; reflexivity |]. repeat split.
    + unfold dest_write. rewrite Hopen. reflexivity.
    + rewrite wire_bytes_write by exact Hopen. reflexivity.
  - split; [reflexivity |]. repeat split.
    + unfold dest_write. rewrite Hopen. reflexivity.
    + rewrite wire_bytes_write by exact Hopen. reflexivity.
Qed.

(** A request socket that nothing has been written to. *)
Lemma content_length_matches_witness :
  let req := {| wr_id := 0; wr_log := []; wr_ended := false |} in
  let this := Response (VOther OPlainObject) no_options in
  exists buf,
    (consumeBody this world1).2 = Done (Resolved buf)
    /\ getTotalBytes this = Some (Z.of_nat (length (buf_bytes buf)))
    /\ let '(dest', w', r) := writeToStream req this world1 in
       r = Return tt /\ w' = world1
       /\ wr_ended dest' = true /\ wr_id dest' = wr_id req
       /\ wire_bytes dest' = wire_bytes req ++ buf_bytes buf.
Proof.
  apply (content_length_matches (Response (VOther OPlainObject) no_options) world1
           {| wr_id := 0; wr_log := []; wr_ended := false |});
    [reflexivity | exact I | reflexivity].
Defined.

(** X10. The helpers throw only on a body the constructor never stores:
    [extractContentType] exactly on an undefined body, [writeToStream]
    exactly on an undefined body or a value that is none of the five
    shapes.  On a holder as built by the constructor neither throws, and
    [getTotalBytes] returns null only if the body is a stream. *)
Theorem helpers_throw_only_off_shape (h this : holder) (v : value) (opts : options)
    (dest : writable) (w : world) :
  ((exists e, extractContentType h = Throw e) <-> body h = VUndefined)
  /\ ((exists e, (writeToStream dest h w).2 = Throw e)
      <-> consume_branch (body h) = BrDefensive)
  /\ (exists ct, extractContentType (Body this v opts) = Return ct)
  /\ (writeToStream dest (Body this v opts) w).2 = Return tt
  /\ (getTotalBytes (Body this v opts) = None ->
      exists s, body (Body this v opts) = VStream s).
Proof.
  unfold extractContentType, writeToStream, getTotalBytes. repeat split.
  - intros [e H]. destruct (body h) as [| |s|b|b|s|o]; try discriminate H;
      try reflexivity. destruct (getBoundary s); discriminate H.
  - intros ->. eauto.
  - intros [e H]. destruct (body h); cbn in *; try discriminate H; reflexivity.
  - destruct (body h); cbn; try discriminate; eauto.
  - destruct v as [| |s|b|b|s|o]; cbn; eauto. destruct (getBoundary s); eauto.
  - destruct v; reflexivity.
  - destruct v as [| |s|b|b|s|o]; cbn; try discriminate; eauto.
Qed.

Lemma emit_last (src d : nat) (old : list nat) (c : Buffer) (w : world) :
  dests w src = old ++ [d] ->
  Forall (fun x => x <> d) old ->
  chunks (emit src c w) d = chunks w d ++ [c]
  /\ dests (emit src c w) src = dests w src.
Proof.
  intros Hd Hold. unfold chunks, emit; cbn [readable pipes]. split; [| reflexivity].
  rewrite Hd, fold_left_app. cbn [fold_left].
  rewrite write_lookup_eq, fold_write_other by assumption. reflexivity.
Qed.

Lemma emit_all_last (src d : nat) (old : list nat) (cs : list Buffer) (w : world) :
  dests w src = old ++ [d] ->
  Forall (fun x => x <> d) old ->
  chunks (emit_all src cs w) d = chunks w d ++ cs.
Proof.
  intros Hd Hold. revert w Hd.
  induction cs as [|c cs IH]; intros w Hd; cbn [emit_all fold_left].
  - rewrite app_nil_r. reflexivity.
  - destruct (emit_last src d old c w Hd Hold) as [E1 E2].
    fold (emit_all src cs (emit src c w)).
    rewrite IH by congruence. rewrite E1, <- app_assoc. reflexivity.
Qed.

(** X11. For a stream body [writeToStream] writes nothing itself and does
    not end the destination: it pipes the stream into it, after whatever
    the stream was piped into before.  If the destination was not piped
    from this stream already, every chunk the stream produces from then on
    reaches it once, in order. *)
Theorem writeToStream_pipes (h : holder) (s : Stream) (dest : writable) (w : world) :
  body h = VStream s ->
  Forall (fun d => d <> wr_id dest) (dests w (stream_id s)) ->
  let '(dest', w', r) := writeToStream dest h w in
  r = Return tt /\ dest' = dest
  /\ next_id w' = next_id w
  /\ dests w' (stream_id s) = dests w (stream_id s) ++ [wr_id dest]
  /\ forall cs,
       chunks (emit_all (stream_id s) cs w') (wr_id dest)
       = chunks w (wr_id dest) ++ cs.
Proof.
  intros Hb Hold. unfold writeToStream. rewrite Hb.
  assert (Hd : dests (pipe s (as_stream dest) w) (stream_id s)
               = dests w (stream_id s) ++ [wr_id dest]).
  { unfold pipe, dests at 1. cbn. rewrite lookup_insert_eq. reflexivity. }
  repeat split; [exact Hd |].
  intros cs. rewrite (emit_all_last _ _ _ cs _ Hd Hold). reflexivity.
Qed.

Lemma writeToStream_pipes_witness :
  let req := {| wr_id := 5; wr_log := []; wr_ended := false |} in
  let h := Response (VStream (plain_stream 0)) no_options in
  let '(dest', w', r) := writeToStream req h world1 in
  r = Return tt /\ dest' = req
  /\ next_id w' = next_id world1
  /\ dests w' 0 = dests world1 0 ++ [5%nat]
  /\ forall cs, chunks (emit_all 0 cs w') 5 = chunks world1 5 ++ cs.
Proof.
  apply (writeToStream_pipes (Response (VStream (plain_stream 0)) no_options)
           (plain_stream 0) {| wr_id := 5; wr_log := []; wr_ended := false |} world1).
  - reflexivity.
  - constructor.
Defined.

(** ** [Body.mixIn] *)

Lemma has_property_spec (name : string) (proto : object) :
  has_property name proto = true
  <-> is_Some (own proto !! name) \/ name ∈ inherited proto.
Proof.
  unfold has_property. rewrite orb_true_iff, !bool_decide_eq_true. reflexivity.
Qed.

Lemma has_property_not_own (name : string) (proto : object) :
  has_property name proto = false -> own proto !! name = None.
Proof.
  intros H. destruct (own proto !! name) eqn:E; [| reflexivity].
  assert (has_property name proto = true) by (apply has_property_spec; left; eauto).
  congruence.
Qed.

Lemma mix_one_inherited (proto : object) (e : string * descriptor) :
  inherited (mix_one proto e) = inherited proto.
Proof. unfold mix_one. destruct (has_property e.1 proto); reflexivity. Qed.

(** One turn of the loop leaves alone every name the target has, own or
    inherited, and every name other than the one at hand. *)
Lemma mix_one_own (proto : object) (e : string * descriptor) (name : string) :
  has_property name proto = true \/ name <> e.1 ->
  own (mix_one proto e) !! name = own proto !! name.
Proof.
  intros H. unfold mix_one. destruct (has_property e.1 proto) eqn:He; [reflexivity |].
  cbn [own defineProperty]. apply lookup_insert_ne.
  intros <-. destruct H as [H | H]; congruence.
Qed.

Lemma mix_one_has (proto : object) (e : string * descriptor) (name : string) :
  has_property name proto = true -> has_property name (mix_one proto e) = true.
Proof.
  intros H. apply has_property_spec.
  rewrite mix_one_inherited, mix_one_own by (left; exact H).
  apply has_property_spec. exact H.
Qed.

Lemma mix_one_has_self (proto : object) (e : string * descriptor) :
  has_property e.1 (mix_one proto e) = true.
Proof.
  destruct (has_property e.1 proto) eqn:He; [apply mix_one_has; exact He |].
  unfold mix_one. rewrite He. apply has_property_spec. left.
  cbn [own defineProperty]. rewrite lookup_insert_eq. eauto.
Qed.

Lemma mix_has (l : list (string * descriptor)) (proto : object) (name : string) :
  has_property name proto = true -> has_property name (mix l proto) = true.
Proof.
  revert proto. induction l as [|e l IH]; intros proto H; cbn; [exact H |].
  apply IH, mix_one_has, H.
Qed.

Lemma mix_inherited (l : list (string * descriptor)) (proto : object) :
  inherited (mix l proto) = inherited proto.
Proof.
  revert proto. induction l as [|e l IH]; intros proto; cbn; [reflexivity |].
  rewrite IH. apply mix_one_inherited.
Qed.

Lemma mix_own_has (l : list (string * descriptor)) (proto : object) (name : string) :
  has_property name proto = true -> own (mix l proto) !! name = own proto !! name.
Proof.
  revert proto. induction l as [|e l IH]; intros proto H; cbn; [reflexivity |].
  rewrite IH by (apply mix_one_has; exact H). apply mix_one_own. left. exact H.
Qed.

Lemma mix_own_other (l : list (string * descriptor)) (proto : object) (name : string) :
  ~ In name (map fst l) -> own (mix l proto) !! name = own proto !! name.
Proof.
  revert proto. induction l as [|e l IH]; intros proto H; cbn; [reflexivity |].
  rewrite IH by (intros Hin; apply H; right; exact Hin).
  apply mix_one_own. right. intros ->. apply H. left. reflexivity.
Qed.

Lemma mix_adds (l : list (string * descriptor)) (proto : object)
    (name : string) (desc : descriptor) :
  NoDup (map fst l) -> In (name, desc) l -> has_property name proto = false ->
  own (mix l proto) !! name = Some desc.
Proof.
  revert proto. induction l as [|e l IH]; intros proto Hnd Hin Hno; [destruct Hin |].
  cbn [map] in Hnd. apply NoDup_cons in Hnd as [Hfresh Hnd]. cbn [mix fold_left].
  destruct Hin as [-> | Hin].
  - fold (mix l (mix_one proto (name, desc))).
    rewrite mix_own_has by apply (mix_one_has_self proto (name, desc)).
    unfold mix_one. cbn [fst snd]. rewrite Hno. cbn [own defineProperty].
    apply lookup_insert_eq.
  - fold (mix l (mix_one proto e)). apply IH; [exact Hnd | exact Hin |].
    assert (Hne : name <> e.1).
    { intros ->. apply Hfresh. apply list_elem_of_In.
      change e.1 with (fst e). apply in_map_iff. exists (fst e, desc).
      split; [reflexivity | exact Hin]. }
    destruct (has_property name (mix_one proto e)) eqn:H; [| reflexivity].
    apply has_property_spec in H. rewrite mix_one_inherited in H.
    rewrite mix_one_own in H by (right; exact Hne).
    apply has_property_spec in H. congruence.
Qed.

Lemma mix_all_has (l : list (string * descriptor)) (proto : object)
    (e : string * descriptor) :
  In e l -> has_property e.1 (mix l proto) = true.
Proof.
  revert proto. induction l as [|e' l IH]; intros proto Hin; [destruct Hin |].
  cbn [mix fold_left]. fold (mix l (mix_one proto e')).
  destruct Hin as [-> | Hin]; [apply mix_has, mix_one_has_self | apply IH, Hin].
Qed.

Lemma mix_nothing_to_add (l : list (string * descriptor)) (proto : object) :
  (forall e, In e l -> has_property e.1 proto = true) -> mix l proto = proto.
Proof.
  induction l as [|e l IH]; intros H; cbn [mix fold_left]; [reflexivity |].
  unfold mix_one at 2. rewrite (H e) by (left; reflexivity).
  apply IH. intros e' He'. apply H. right. exact He'.
Qed.

Lemma Body_prototype_names : NoDup (map fst Body_prototype).
Proof. apply (bool_decide_unpack _). vm_compute. reflexivity. Qed.

(** X12. [Body.mixIn] never replaces or shadows a property the target has,
    own or inherited; it gives the target, as own properties, exactly those
    of [bodyUsed] and the five methods that the target lacks; afterwards
    the target has all six; and it touches no other name nor what the
    target inherits. *)
Theorem mixIn_fills_the_gaps (proto : object) (name : string) :
  inherited (mixIn proto) = inherited proto
  /\ (has_property name proto = true ->
      own (mixIn proto) !! name = own proto !! name)
  /\ (forall desc,
        In (name, desc) Body_prototype -> has_property name proto = false ->
        own (mixIn proto) !! name = Some desc)
  /\ (~ In name (map fst Body_prototype) ->
      own (mixIn proto) !! name = own proto !! name)
  /\ (forall e, In e Body_prototype -> has_property e.1 (mixIn proto) = true).
Proof.
  unfold mixIn. split; [apply mix_inherited |].
  split; [apply mix_own_has |].
  split; [intros desc; apply mix_adds, Body_prototype_names |].
  split; [apply mix_own_other | intros e; apply mix_all_has].
Qed.

(** A prototype with a [clone] and a [text] of its own that inherits
    [toString]. *)
Lemma mixIn_fills_the_gaps_witness :
  let proto := {| own := <["text" := Foreign 1]> (<["clone" := Foreign 0]> ∅);
                  inherited := {["toString"]} |}%string in
  own (mixIn proto) !! "text"%string = Some (Foreign 1)
  /\ own (mixIn proto) !! "json"%string = Some (Method Mjson)
  /\ own (mixIn proto) !! "toString"%string = None.
Proof.
  cbv zeta.
  set (proto := {| own := <["text"%string := Foreign 1]> (<["clone"%string := Foreign 0]> ∅);
                   inherited := {["toString"%string]} |}).
  split; [| split].
  - destruct (mixIn_fills_the_gaps proto "text") as (_ & H & _).
    rewrite H by (vm_compute; reflexivity). reflexivity.
  - destruct (mixIn_fills_the_gaps proto "json") as (_ & _ & H & _).
    apply H; [cbn; tauto | vm_compute; reflexivity].
  - destruct (mixIn_fills_the_gaps proto "toString") as (_ & H & _).
    rewrite H by (vm_compute; reflexivity). reflexivity.
Defined.

(** X13. Mixing in twice is the same as mixing in once. *)
Theorem mixIn_idempotent (proto : object) : mixIn (mixIn proto) = mixIn proto.
Proof.
  unfold mixIn. apply mix_nothing_to_add. intros e He. apply mix_all_has, He.
Qed.

(** ** The text of a string body *)

Lemma lor_shiftl_add (a b n : Z) :
  0 <= n -> 0 <= b < 2 ^ n -> Z.lor (Z.shiftl a n) b = a * 2 ^ n + b.
Proof.
  intros Hn Hb.
  assert (Hpow : 0 < 2 ^ n) by (apply Z.pow_pos_nonneg; lia).
  rewrite <- (Z.lor_ldiff_and (a * 2 ^ n + b) (Z.ones n)).
  rewrite Z.ldiff_ones_r, Z.land_ones, Z.shiftr_div_pow2 by exact Hn.
  rewrite Z.div_add_l by lia. rewrite (Z.div_small b) by exact Hb.
  rewrite Z.add_0_r.
  rewrite Z.add_comm, Z.mod_add by lia. rewrite Z.mod_small by exact Hb.
  reflexivity.
Qed.

Lemma continuation_arith (x : Z) :
  Z.lor 0x80 (Z.land x 0x3F) = 128 + x mod 64.
Proof.
  change 0x3F with (Z.ones 6). rewrite Z.land_ones by lia.
  change 0x80 with (Z.shiftl 2 6).
  rewrite lor_shiftl_add; [reflexivity | lia |].
  apply Z.mod_pos_bound. reflexivity.
Qed.

Lemma lead_arith (tag k q : Z) :
  0 <= k -> 0 <= q < 2 ^ k -> Z.lor (Z.shiftl tag k) q = tag * 2 ^ k + q.
Proof. intros. apply lor_shiftl_add; assumption. Qed.

Lemma encode_cp_arith (cp : Z) :
  0 <= cp < 0x110000 ->
  encode_cp cp
  = if cp <? 0x80 then [cp]
    else if cp <? 0x800 then [192 + cp / 64; 128 + cp mod 64]
    else if cp <? 0x10000 then
      [224 + cp / 4096; 128 + (cp / 64) mod 64; 128 + cp mod 64]
    else [240 + cp / 262144; 128 + (cp / 4096) mod 64;
          128 + (cp / 64) mod 64; 128 + cp mod 64].
Proof.
  intros [H0 H1]. unfold encode_cp. rewrite !continuation_arith.
  rewrite !Z.shiftr_div_pow2 by lia.
  change (2 ^ 6) with 64. change (2 ^ 12) with 4096. change (2 ^ 18) with 262144.
  destruct (Z.ltb_spec cp 0x80); [reflexivity |].
  destruct (Z.ltb_spec cp 0x800).
  { change 0xC0 with (Z.shiftl 6 5). rewrite lead_arith; [reflexivity | lia |].
    split; [apply Z.div_pos; lia | apply Z.div_lt_upper_bound; lia]. }
  destruct (Z.ltb_spec cp 0x10000).
  { change 0xE0 with (Z.shiftl 14 4). rewrite lead_arith; [reflexivity | lia |].
    split; [apply Z.div_pos; lia | apply Z.div_lt_upper_bound; lia]. }
  change 0xF0 with (Z.shiftl 30 3). rewrite lead_arith; [reflexivity | lia |].
  split; [apply Z.div_pos; lia | apply Z.div_lt_upper_bound; lia].
Qed.

Ltac decide_tests :=
  repeat match goal with
         | |- context [?a <=? ?b] =>
           first [ replace (a <=? b) with true by (symmetry; apply Z.leb_le; lia)
                 | replace (a <=? b) with false by (symmetry; apply Z.leb_gt; lia) ]
         | |- context [?a =? ?b] =>
           first [ replace (a =? b) with true by (symmetry; apply Z.eqb_eq; lia)
                 | replace (a =? b) with false by (symmetry; apply Z.eqb_neq; lia) ]
         end; cbn [andb orb negb].

Lemma decode_lead1 (b : Z) : 0 <= b <= 0x7F -> decode_lead b = ([b], Idle).
Proof. intros H. unfold decode_lead. decide_tests. reflexivity. Qed.

Lemma decode_lead2 (q : Z) :
  2 <= q < 32 -> decode_lead (192 + q) = ([], Cont q 1 0x80 0xBF).
Proof.
  intros H. unfold decode_lead. decide_tests.
  change 0x1F with (Z.ones 5). rewrite Z.land_ones by lia.
  replace ((192 + q) mod 2 ^ 5) with q; [reflexivity |].
  change (2 ^ 5) with 32. Z.to_euclidean_division_equations. lia.
Qed.

Lemma decode_lead3 (q : Z) :
  0 <= q < 16 ->
  decode_lead (224 + q)
  = ([], Cont q 2 (if q =? 0 then 0xA0 else 0x80) (if q =? 13 then 0x9F else 0xBF)).
Proof.
  intros H. unfold decode_lead.
  replace (224 + q <=? 0x7F) with false by (symmetry; apply Z.leb_gt; lia).
  replace (0xC2 <=? 224 + q) with true by (symmetry; apply Z.leb_le; lia).
  replace (224 + q <=? 0xDF) with false by (symmetry; apply Z.leb_gt; lia).
  replace (0xE0 <=? 224 + q) with true by (symmetry; apply Z.leb_le; lia).
  replace (224 + q <=? 0xEF) with true by (symmetry; apply Z.leb_le; lia).
  cbn [andb].
  change 0xF with (Z.ones 4). rewrite Z.land_ones by lia.
  replace ((224 + q) mod 2 ^ 4) with q
    by (change (2 ^ 4) with 16; Z.to_euclidean_division_equations; lia).
  replace (224 + q =? 0xE0) with (q =? 0)
    by (destruct (Z.eqb_spec q 0); symmetry; [apply Z.eqb_eq | apply Z.eqb_neq]; lia).
  replace (224 + q =? 0xED) with (q =? 13)
    by (destruct (Z.eqb_spec q 13); symmetry; [apply Z.eqb_eq | apply Z.eqb_neq]; lia).
  reflexivity.
Qed.

Lemma decode_lead4 (q : Z) :
  0 <= q <= 4 ->
  decode_lead (240 + q)
  = ([], Cont q 3 (if q =? 0 then 0x90 else 0x80) (if q =? 4 then 0x8F else 0xBF)).
Proof.
  intros H. unfold decode_lead.
  replace (240 + q <=? 0x7F) with false by (symmetry; apply Z.leb_gt; lia).
  replace (0xC2 <=? 240 + q) with true by (symmetry; apply Z.leb_le; lia).
  replace (240 + q <=? 0xDF) with false by (symmetry; apply Z.leb_gt; lia).
  replace (0xE0 <=? 240 + q) with true by (symmetry; apply Z.leb_le; lia).
  replace (240 + q <=? 0xEF) with false by (symmetry; apply Z.leb_gt; lia).
  replace (0xF0 <=? 240 + q) with true by (symmetry; apply Z.leb_le; lia).
  replace (240 + q <=? 0xF4) with true by (symmetry; apply Z.leb_le; lia).
  cbn [andb].
  change 0x7 with (Z.ones 3). rewrite Z.land_ones by lia.
  replace ((240 + q) mod 2 ^ 3) with q
    by (change (2 ^ 3) with 8; Z.to_euclidean_division_equations; lia).
  replace (240 + q =? 0xF0) with (q =? 0)
    by (destruct (Z.eqb_spec q 0); symmetry; [apply Z.eqb_eq | apply Z.eqb_neq]; lia).
  replace (240 + q =? 0xF4) with (q =? 4)
    by (destruct (Z.eqb_spec q 4); symmetry; [apply Z.eqb_eq | apply Z.eqb_neq]; lia).
  reflexivity.
Qed.

(** A continuation byte within the bounds extends the code point. *)
Lemma decode_cont (acc : Z) (remaining : nat) (lower upper r : Z) :
  0 <= r < 64 -> lower <= 128 + r <= upper ->
  decode_step (Cont acc remaining lower upper) (128 + r)
  = match remaining with
    | 1%nat => ([acc * 64 + r], Idle)
    | _ => ([], Cont (acc * 64 + r) (pred remaining) 0x80 0xBF)
    end.
Proof.
  intros Hr Hb. unfold decode_step.
  replace (lower <=? 128 + r) with true by (symmetry; apply Z.leb_le; lia).
  replace (128 + r <=? upper) with true by (symmetry; apply Z.leb_le; lia).
  cbn [andb].
  change 0x3F with (Z.ones 6). rewrite Z.land_ones by lia.
  replace ((128 + r) mod 2 ^ 6) with r
    by (change (2 ^ 6) with 64; Z.to_euclidean_division_equations; lia).
  rewrite lor_shiftl_add by (change (2 ^ 6) with 64; lia).
  reflexivity.
Qed.

Lemma decode_from_cons (st : dec_state) (b : Z) (rest : list Z) :
  decode_from st (b :: rest)
  = (decode_step st b).1 ++ decode_from (decode_step st b).2 rest.
Proof. cbn [decode_from]. destruct (decode_step st b). reflexivity. Qed.

(** Decoding the encoding of a scalar value gives it back. *)
Lemma decode_scalar (cp : Z) (rest : list Z) :
  scalar cp ->
  decode_from Idle (encode_cp cp ++ rest) = cp :: decode_from Idle rest.
Proof.
  intros [[H0 H1] Hs]. rewrite encode_cp_arith by lia.
  destruct (Z.ltb_spec cp 0x80).
  { cbn [app]. rewrite decode_from_cons. cbn [decode_step].
    rewrite decode_lead1 by lia. reflexivity. }
  destruct (Z.ltb_spec cp 0x800).
  { cbn [app]. rewrite decode_from_cons. cbn [decode_step].
    rewrite decode_lead2 by (Z.to_euclidean_division_equations; lia).
    cbn [fst snd app]. rewrite decode_from_cons.
    rewrite decode_cont by (Z.to_euclidean_division_equations; lia).
    cbn [fst snd app]. f_equal. Z.to_euclidean_division_equations. lia. }
  destruct (Z.ltb_spec cp 0x10000).
  { cbn [app]. rewrite decode_from_cons. cbn [decode_step].
    rewrite decode_lead3 by (Z.to_euclidean_division_equations; lia).
    cbn [fst snd app]. rewrite decode_from_cons.
    rewrite decode_cont.
    - cbn [fst snd app pred]. rewrite decode_from_cons.
      rewrite decode_cont by (Z.to_euclidean_division_equations; lia).
      cbn [fst snd app]. f_equal. Z.to_euclidean_division_equations. lia.
    - Z.to_euclidean_division_equations. lia.
    - destruct (Z.eqb_spec (cp / 4096) 0), (Z.eqb_spec (cp / 4096) 13);
        Z.to_euclidean_division_equations; lia. }
  cbn [app]. rewrite decode_from_cons. cbn [decode_step].
  rewrite decode_lead4 by (Z.to_euclidean_division_equations; lia).
  cbn [fst snd app]. rewrite decode_from_cons.
  rewrite decode_cont.
  - cbn [fst snd app pred]. rewrite decode_from_cons.
    rewrite decode_cont by (Z.to_euclidean_division_equations; lia).
    cbn [fst snd app pred]. rewrite decode_from_cons.
    rewrite decode_cont by (Z.to_euclidean_division_equations; lia).
    cbn [fst snd app]. f_equal. Z.to_euclidean_division_equations. lia.
  - Z.to_euclidean_division_equations. lia.
  - destruct (Z.eqb_spec (cp / 262144) 0), (Z.eqb_spec (cp / 262144) 4);
      Z.to_euclidean_division_equations; lia.
Qed.

Lemma utf8_decode_scalar (cp : Z) (bytes : list Z) :
  scalar cp ->
  utf8_decode (encode_cp cp ++ bytes) = cp_to_utf16 cp ++ utf8_decode bytes.
Proof.
  intros H. unfold utf8_decode. rewrite decode_scalar by exact H. reflexivity.
Qed.

Lemma round_trip_upto (n : nat) (s : jsstring) :
  (length s <= n)%nat -> well_formed s = true -> utf8_decode (utf8_encode s) = s.
Proof.
  revert s. induction n as [|n IH]; intros s Hlen Hwf.
  - destruct s; [reflexivity | cbn in Hlen; lia].
  - destruct s as [|u rest]; [reflexivity |].
    cbn [length] in Hlen. cbn [utf8_encode well_formed] in *.
    destruct (is_high_surrogate u) eqn:Hh.
    + destruct rest as [|v rest']; [discriminate Hwf |].
      cbn [length] in Hlen.
      apply andb_true_iff in Hwf as [Hl Hwf]. rewrite Hl.
      unfold is_high_surrogate in Hh. unfold is_low_surrogate in Hl.
      apply andb_true_iff in Hh as [Hh1 Hh2]. apply andb_true_iff in Hl as [Hl1 Hl2].
      apply Z.leb_le in Hh1, Hh2, Hl1, Hl2.
      rewrite Z.shiftl_mul_pow2 by lia. change (2 ^ 10) with 1024.
      rewrite utf8_decode_scalar by (unfold scalar; lia).
      rewrite IH by (try assumption; lia).
      unfold cp_to_utf16.
      replace (_ <? 0x10000) with false by (symmetry; apply Z.ltb_ge; lia).
      rewrite Z.shiftr_div_pow2 by lia. change (2 ^ 10) with 1024.
      change 0x3FF with (Z.ones 10). rewrite Z.land_ones by lia.
      change (2 ^ 10) with 1024. cbn [app]. f_equal; [| f_equal].
      * Z.to_euclidean_division_equations. lia.
      * Z.to_euclidean_division_equations. lia.
    + apply andb_true_iff in Hwf as [Hwf Hrest].
      apply andb_true_iff in Hwf as [Hwf Hhi].
      apply andb_true_iff in Hwf as [Hlow Hlo].
      apply negb_true_iff in Hlow. rewrite Hlow.
      apply Z.leb_le in Hhi, Hlo.
      unfold is_high_surrogate in Hh. unfold is_low_surrogate in Hlow.
      apply andb_false_iff in Hh. apply andb_false_iff in Hlow.
      rewrite !Z.leb_gt in Hh, Hlow.
      rewrite utf8_decode_scalar by (unfold scalar; lia).
      rewrite IH by (try assumption; lia).
      unfold cp_to_utf16.
      replace (u <? 0x10000) with true by (symmetry; apply Z.ltb_lt; lia).
      reflexivity.
Qed.

(** X14. The text of a string body is the string: for an unused holder whose
    body is a well-formed string (16-bit code units, every surrogate part
    of a pair), [text()] resolves to that very string. *)
Theorem text_of_string_body (this : holder) (w : world) (evs : list event)
    (s : jsstring) :
  bodyUsed this = false ->
  body this = VString s ->
  well_formed s = true ->
  let '(h, w', a) := text this w in
  (outcome h a w' evs).1 = Some (Resolved s).
Proof.
  unfold bodyUsed, text, consumeBody. intros -> Hb Hwf. cbn [body set_DISTURBED].
  rewrite Hb. unfold outcome, promise_after, Buffer_from, Buffer_new, Buffer_toString.
  cbn [awaited resume fst snd buf_bytes].
  rewrite (round_trip_upto (length s)) by (try assumption; lia). reflexivity.
Qed.

Lemma text_of_string_body_witness :
  let s := [0x61; 0x20AC; 0xD83D; 0xDE00] in
  let '(h, w', a) := text (Response (VString s) no_options) world1 in
  (outcome h a w' []).1 = Some (Resolved s).
Proof.
  apply (text_of_string_body (Response (VString [0x61; 0x20AC; 0xD83D; 0xDE00]) no_options)
           world1 [] [0x61; 0x20AC; 0xD83D; 0xDE00]); reflexivity.
Defined.

(** A lone surrogate does not survive: it comes back as U+FFFD. *)
Example text_of_lone_surrogate :
  let '(h, w', a) := text (Response (VString [0xD83D; 0x61]) no_options) world1 in
  (outcome h a w' []).1 = Some (Resolved [0xFFFD; 0x61]).
Proof. reflexivity. Qed.

Lemma encode_cp_length (cp : Z) :
  (1 <= length (encode_cp cp) <= 4)%nat
  /\ (cp < 0x10000 -> (length (encode_cp cp) <= 3)%nat)
  /\ (0x10000 <= cp -> length (encode_cp cp) = 4%nat).
Proof.
  unfold encode_cp.
  destruct (Z.ltb_spec cp 0x80); [cbn; lia |].
  destruct (Z.ltb_spec cp 0x800); [cbn; lia |].
  destruct (Z.ltb_spec cp 0x10000); cbn; lia.
Qed.

Lemma utf8_encode_length_upto (n : nat) (s : jsstring) :
  (length s <= n)%nat ->
  Forall (fun u => u < 0x10000) s ->
  (length s <= length (utf8_encode s) <= 3 * length s)%nat.
Proof.
  revert s. induction n as [|n IH]; intros s Hlen Hs.
  - destruct s; [cbn; lia | cbn in Hlen; lia].
  - destruct s as [|u rest]; [cbn; lia |].
    inversion Hs as [|? ? Hu Hrest]; subst. cbn [length] in Hlen.
    cbn [utf8_encode].
    destruct (is_high_surrogate u) eqn:Hh.
    + destruct rest as [|v rest']; [cbn; lia |].
      inversion Hrest as [|? ? Hv Hrest']; subst. cbn [length] in Hlen.
      destruct (is_low_surrogate v) eqn:Hl.
      * rewrite length_app. cbn [length].
        pose proof (IH rest' ltac:(lia) Hrest').
        unfold is_high_surrogate in Hh. unfold is_low_surrogate in Hl.
        apply andb_true_iff in Hh as [Hh1 Hh2]. apply andb_true_iff in Hl as [Hl1 Hl2].
        apply Z.leb_le in Hh1, Hh2, Hl1, Hl2.
        destruct (encode_cp_length
                    (0x10000 + Z.shiftl (u - 0xD800) 10 + (v - 0xDC00)))
          as (_ & _ & H4).
        rewrite H4 by (rewrite Z.shiftl_mul_pow2 by lia; lia). lia.
      * rewrite length_app.
        pose proof (IH (v :: rest') ltac:(cbn [length]; lia) Hrest) as H.
        cbn [length] in H. cbn [length]. change (length (encode_cp 0xFFFD)) with 3%nat.
        lia.
    + destruct (is_low_surrogate u); rewrite length_app; cbn [length];
        pose proof (IH rest ltac:(lia) Hrest).
      * change (length (encode_cp 0xFFFD)) with 3%nat. lia.
      * destruct (encode_cp_length u) as (H1 & H2 & _). specialize (H2 Hu). lia.
Qed.

(** X15. For a string body of 16-bit code units, what [getTotalBytes]
    returns is the length of the buffer [consumeBody] resolves to; it lies
    between the number of code units and three times that number; and that
    buffer holds byte values only. *)
Theorem string_body_bytes (this : holder) (w : world) (s : jsstring) :
  bodyUsed this = false ->
  body this = VString s ->
  Forall (fun u => 0 <= u < 0x10000) s ->
  exists buf,
    (consumeBody this w).2 = Done (Resolved buf)
    /\ getTotalBytes this = Some (Z.of_nat (length (buf_bytes buf)))
    /\ (length s <= length (buf_bytes buf) <= 3 * length s)%nat
    /\ Forall is_byte (buf_bytes buf).
Proof.
  unfold bodyUsed, consumeBody, getTotalBytes. intros -> Hb Hs.
  cbn [body set_DISTURBED]. rewrite Hb. cbn [snd Buffer_from Buffer_new].
  eexists. split; [reflexivity |]. cbn [buf_bytes].
  split; [reflexivity | split].
  - apply (utf8_encode_length_upto (length s)); [lia |].
    eapply Forall_impl; [exact Hs |]. cbn. intros; lia.
  - apply utf8_encode_bytes. exact Hs.
Qed.

Lemma string_body_bytes_witness :
  exists buf,
    (consumeBody (Response (VString [0x61; 0x20AC]) no_options) world1).2
    = Done (Resolved buf)
    /\ getTotalBytes (Response (VString [0x61; 0x20AC]) no_options)
       = Some (Z.of_nat (length (buf_bytes buf)))
    /\ (2 <= length (buf_bytes buf) <= 6)%nat
    /\ Forall is_byte (buf_bytes buf).
Proof.
  apply (string_body_bytes (Response (VString [0x61; 0x20AC]) no_options) world1
           [0x61; 0x20AC]).
  - reflexivity.
  - reflexivity.
  - repeat constructor; lia.
Defined.

(** ** What [clone] leaves alone *)

(** X16. [clone] never marks the body used and changes nothing of the owner
    but its body; when it throws, the owner and the world are as before;
    and in every case the objects that existed keep what is readable on
    them and, other than the cloned stream itself, what is piped from
    them. *)
Theorem clone_leaves_the_rest (instance : holder) (w : world) :
  let '(instance', w', r) := clone instance w in
  DISTURBED instance' = DISTURBED instance
  /\ size instance' = size instance
  /\ timeout instance' = timeout instance
  /\ url instance' = url instance
  /\ content_type instance' = content_type instance
  /\ (forall e, r = Throw e -> instance' = instance /\ w' = w)
  /\ (next_id w <= next_id w')%nat
  /\ (forall k, (k < next_id w)%nat ->
        chunks w' k = chunks w k
        /\ ((forall s, body instance = VStream s -> stream_id s <> k) ->
            dests w' k = dests w k)).
Proof.
  unfold clone. destruct (bodyUsed instance);
    [cbn; repeat split; reflexivity |].
  destruct (body instance) as [| |x|b|b|s|o];
    try (cbn; repeat split; try reflexivity; intros e H; discriminate H).
  destruct (getBoundary s);
    [cbn; repeat split; try reflexivity; intros e H; discriminate H |].
  cbn -[pipe PassThrough]. unfold PassThrough. cbn [fst snd next_id].
  repeat split; try reflexivity; try congruence.
  - cbn. lia.
  - unfold chunks, pipe. cbn.
    rewrite !lookup_insert_ne by lia. reflexivity.
  - intros Hs. specialize (Hs s eq_refl).
    unfold dests, pipe. cbn.
    rewrite !lookup_insert_ne by (try lia; congruence). reflexivity.
Qed.

(** ** The timer on the paths that do disarm it *)

Lemma step_disarmed (this : holder) (c : consumer) (w : world) (ev : event) :
  disarmed this c -> disarmed this (step this c w ev).1.
Proof.
  intros [Hres Hnone]. destruct ev as [[x|]| |err|]; cbn [step].
  - destruct (abort c); [split; assumption |].
    destruct (negb (size this =? 0) && (accumBytes c + chunk_length x >? size this));
      cbn [fst]; (split; [| exact Hnone]); cbn [promise resTimeout]; [| exact Hres].
    intros b Hb. destruct (promise c) eqn:Hp; [| discriminate]. apply (Hres b), Hb.
  - split; assumption.
  - destruct (abort c); [split; assumption |].
    cbn [fst]. split; cbn [promise resTimeout].
    + intros b _. destruct (resTimeout c); discriminate.
    + intros Hz. rewrite (Hnone Hz). reflexivity.
  - cbn [fst]. split; [| exact Hnone]. cbn [promise resTimeout].
    intros b Hb. destruct (promise c) eqn:Hp; [| discriminate]. apply (Hres b), Hb.
  - destruct (resTimeout c) eqn:Ht; cbn [fst];
      try (split; [intros b Hb; rewrite Ht; discriminate | intros Hz; rewrite Ht; auto]).
    split; cbn [promise resTimeout]; [discriminate |].
    intros Hz. specialize (Hnone Hz). discriminate Hnone.
Qed.

Lemma run_disarmed (this : holder) (evs : list event) (c : consumer) (w : world) :
  disarmed this c -> disarmed this (run this c w evs).1.
Proof.
  revert c w. induction evs as [|ev evs IH]; intros c w H; cbn [run]; [exact H |].
  pose proof (step_disarmed this c w ev H) as H'.
  destruct (step this c w ev) as [c' w']. apply IH. exact H'.
Qed.

(** X17. Whatever the events, a stream body that has resolved has no armed
    timer left; and with [timeout] 0 no timer is ever set, so the timer
    callback never runs and the body is never rejected with
    [body-timeout]. *)
Theorem resolved_leaves_no_timer (this this' : holder) (w w' : world)
    (c0 : consumer) (evs : list event) :
  consumeBody this w = (this', w', Streaming c0) ->
  let c := (run this' c0 w' evs).1 in
  (forall b, promise c = Some (Resolved b) -> resTimeout c <> Armed)
  /\ (timeout this = 0 ->
      resTimeout c = NoTimer
      /\ promise c <> Some (Rejected (body_timeout_error this'))).
Proof.
  intros Hc. pose proof Hc as Hc'.
  apply consumeBody_streaming in Hc as (-> & -> & -> & _). cbv zeta.
  match goal with |- context [run ?h ?c w evs] =>
    destruct (run_disarmed h evs c w) as [Hres Hnone] end.
  - split; [intros b Hb; discriminate Hb |].
    cbn. intros ->. reflexivity.
  - split; [exact Hres |]. intros Hz. split; [apply Hnone; exact Hz |].
    intros Hrej.
    destruct (run_accounted (set_DISTURBED this true) evs []
                {| accum := []; accumBytes := 0; abort := false;
                   resTimeout := setTimeout_if (timeout this); promise := None |} w)
      as [_ Hexp].
    { split; [cbn; rewrite Hz; discriminate | intros e He; discriminate He]. }
    destruct (Hexp _ Hrej) as [(err & _ & He) | [(_ & Ht & _) | (He & _)]].
    + discriminate He.
    + apply Ht. exact Hz.
    + discriminate He.
Qed.

Lemma resolved_leaves_no_timer_witness :
  let c := (run (set_DISTURBED timed true) timed_start world1
                [EvData (Some (chunk_of 1 "hello")); EvEnd; EvTimeout]).1 in
  (forall b, promise c = Some (Resolved b) -> resTimeout c <> Armed)
  /\ (timeout timed = 0 ->
      resTimeout c = NoTimer
      /\ promise c <> Some (Rejected (body_timeout_error (set_DISTURBED timed true)))).
Proof.
  apply (resolved_leaves_no_timer timed (set_DISTURBED timed true) world1 world1
           timed_start). reflexivity.
Defined.

(** ** Samples for the statements without a premise of their own *)

Lemma methods_add_no_failure_witness :
  let used := set_DISTURBED (Response (VString (str "a=1")) no_options) true in
  status (let '(h, w', a) := json used world1 in (outcome h a w' []).1)
  = Some (Some (already_used used)).
Proof.
  pose proof (methods_add_no_failure
                (set_DISTURBED (Response (VString (str "a=1")) no_options) true)
                world1 []) as H.
  cbn [consumeBody DISTURBED set_DISTURBED] in H.
  destruct H as (_ & _ & _ & _ & H). apply H. discriminate.
Defined.

Lemma helpers_throw_only_off_shape_witness :
  let bare := set_body (Response VNull no_options) VUndefined in
  let req := {| wr_id := 0; wr_log := []; wr_ended := false |} in
  (exists e, extractContentType bare = Throw e)
  /\ (exists e, (writeToStream req bare world1).2 = Throw e).
Proof.
  destruct (helpers_throw_only_off_shape
              (set_body (Response VNull no_options) VUndefined)
              (blank None None) VNull no_options
              {| wr_id := 0; wr_log := []; wr_ended := false |} world1)
    as ([_ H1] & [_ H2] & _).
  split; [apply H1 | apply H2]; reflexivity.
Defined.

Lemma clone_leaves_the_rest_witness :
  let used := set_DISTURBED (Response (VStream (plain_stream 0)) no_options) true in
  (clone used world1).1 = (used, world1).
Proof.
  pose proof (clone_leaves_the_rest
                (set_DISTURBED (Response (VStream (plain_stream 0)) no_options) true)
                world1) as H.
  cbn in H. destruct H as (_ & _ & _ & _ & _ & H & _).
  destruct (H _ eq_refl) as [H1 H2]. reflexivity.
Defined.
